(** * bindable: a writable signal that can be bound once to a source

    Shallow embedding of [bindable.ts].  The factory [bindable] and the
    closure [bindTo] it returns are written in a small state-and-exception
    monad, statement by statement.

    The code calls into Angular (signals, [effect], [inject],
    [assertNotInReactiveContext], [DestroyRef]) and RxJS ([observeOn],
    [asapScheduler], [takeUntilDestroyed]).  These collaborators are
    modelled by an explicit [Runtime] record, after the interface the
    specification gives for them: a store of signals, the set of scopes
    already torn down, the installed subscriptions and effects, and the
    queue of the asap scheduler.  The environment acts on it through
    [Event]s: a source emits, a signal is written, a scope is torn down, a
    scheduling turn runs what is queued. *)

From stdpp Require Import gmap list.

(** ** Handles supplied by the dependency-injection layer *)

(** Signal objects and teardown handles are known by their identity. *)
Definition loc := nat.
Definition DestroyRef := nat.

(** An [Injector] is used only through [injector.get(DestroyRef)], by
    [bindTo] and by [effect].  [get_DestroyRef] is what the token resolves
    to.  Angular's own injectors check that they are alive
    ([assertNotDestroyed]): once the injector, and with it the
    [DestroyRef] it resolves to, is destroyed, [get] throws; a test double
    does no such check. *)
Record Injector := {
  get_DestroyRef : option DestroyRef;
  assertNotDestroyed : bool;
}.

(** The [options] argument: [equal] is the field of [CreateSignalOptions]
    that [signal] reads, the other three are read by [bindable]. *)
Record Options (T : Type) := {
  equal : option (T → T → bool);
  destroyRef : option DestroyRef;
  injector : option Injector;
  manualCleanup : option bool;
}.
Arguments equal {T} _.
Arguments destroyRef {T} _.
Arguments injector {T} _.
Arguments manualCleanup {T} _.

(** [x === true] and [x !== undefined] on optional fields. *)
Definition isTrue (b : option bool) : bool :=
  match b with Some true => true | _ => false end.

Definition defined {A} (o : option A) : bool :=
  match o with Some _ => true | None => false end.

(** [a ?? b] *)
Definition nullish {A} (a b : option A) : option A :=
  match a with Some x => Some x | None => b end.

(** The errors thrown by [bindable] and [bindTo], in source order, and
    those of [inject] and [assertNotInReactiveContext]. *)
Inductive Error :=
| ManualCleanupWithDestroyRefOrInjector
| NoInjectionContext
| InReactiveContext
| AlreadyBound
| SignalWithoutInjector
| NoDestroyRef
| InjectorDestroyed.

(** ** State and exception monad

    A [throw] keeps the state as it was mutated up to that point, as a
    JavaScript exception does. *)

Definition M (S A : Type) : Type := S → (Error + A) * S.

Definition ret {S A} (a : A) : M S A := λ s, (inr a, s).

Definition bind {S A B} (m : M S A) (k : A → M S B) : M S B :=
  λ s, match m s with
       | (inr a, s') => k a s'
       | (inl e, s') => (inl e, s')
       end.

Definition throw {S A} (e : Error) : M S A := λ s, (inl e, s).
Definition gets {S A} (f : S → A) : M S A := λ s, (inr (f s), s).
Definition modify {S} (f : S → S) : M S unit := λ s, (inr tt, f s).

Declare Scope m_scope.
Delimit Scope m_scope with M.
Notation "x <~ m ;; k" := (bind m (λ x, k))
  (at level 100, m at next level, right associativity) : m_scope.
Notation "m ;;; k" := (bind m (λ _, k))
  (at level 100, right associativity) : m_scope.

Section Bindable.
Context {T : Type} `{EqDecision T}.

(** ** The reactive runtime *)

Inductive Notification := Next (v : T) | Complete.

(** An observable is known by its identity and by what it delivers
    synchronously to a new subscriber (a [BehaviorSubject] replays its
    current value, [of(..)] emits everything and completes). *)
Record Observable := { obs_id : nat; obs_onSubscribe : list Notification }.

Inductive Source := SignalSource (s : loc) | ObservableSource (o : Observable).

(** [source.pipe(observeOn(asapScheduler), operatorFunction).subscribe(set)] *)
Record Subscription := {
  sub_source : nat;
  sub_until : option DestroyRef;
  sub_target : loc;
  sub_closed : bool;
  sub_stopped : bool;
}.

(** [effect(() => target.set(source()), { injector })] *)
Record Effect := {
  eff_source : loc;
  eff_target : loc;
  eff_scope : option DestroyRef;
  eff_dirty : bool;
  eff_destroyed : bool;
}.

(** [signals] holds the value of every signal and [equals] its equality
    function; [activeConsumer] tells whether the caller runs inside a
    reactive computation, [injectionContext] which injector [inject]
    would return; [setLog] records every [set] call, oldest first. *)
Record Runtime := {
  signals : gmap loc T;
  equals : gmap loc (T → T → bool);
  destroyed : gset DestroyRef;
  injectionContext : option Injector;
  activeConsumer : bool;
  subscriptions : list Subscription;
  effects : list Effect;
  asap : list (nat * Notification);
  setLog : list (loc * T);
}.

Definition with_signals (f : gmap loc T → gmap loc T) (rt : Runtime) : Runtime :=
  {| signals := f (signals rt); equals := equals rt; destroyed := destroyed rt;
     injectionContext := injectionContext rt; activeConsumer := activeConsumer rt;
     subscriptions := subscriptions rt; effects := effects rt;
     asap := asap rt; setLog := setLog rt |}.

Definition with_equals (f : gmap loc (T → T → bool) → gmap loc (T → T → bool))
    (rt : Runtime) : Runtime :=
  {| signals := signals rt; equals := f (equals rt); destroyed := destroyed rt;
     injectionContext := injectionContext rt; activeConsumer := activeConsumer rt;
     subscriptions := subscriptions rt; effects := effects rt;
     asap := asap rt; setLog := setLog rt |}.

Definition with_destroyed (f : gset DestroyRef → gset DestroyRef) (rt : Runtime) : Runtime :=
  {| signals := signals rt; equals := equals rt; destroyed := f (destroyed rt);
     injectionContext := injectionContext rt; activeConsumer := activeConsumer rt;
     subscriptions := subscriptions rt; effects := effects rt;
     asap := asap rt; setLog := setLog rt |}.

Definition with_context (c : option Injector) (a : bool) (rt : Runtime) : Runtime :=
  {| signals := signals rt; equals := equals rt; destroyed := destroyed rt;
     injectionContext := c; activeConsumer := a;
     subscriptions := subscriptions rt; effects := effects rt;
     asap := asap rt; setLog := setLog rt |}.

Definition with_subscriptions (f : list Subscription → list Subscription) (rt : Runtime) : Runtime :=
  {| signals := signals rt; equals := equals rt; destroyed := destroyed rt;
     injectionContext := injectionContext rt; activeConsumer := activeConsumer rt;
     subscriptions := f (subscriptions rt); effects := effects rt;
     asap := asap rt; setLog := setLog rt |}.

Definition with_effects (f : list Effect → list Effect) (rt : Runtime) : Runtime :=
  {| signals := signals rt; equals := equals rt; destroyed := destroyed rt;
     injectionContext := injectionContext rt; activeConsumer := activeConsumer rt;
     subscriptions := subscriptions rt; effects := f (effects rt);
     asap := asap rt; setLog := setLog rt |}.

Definition with_asap (f : list (nat * Notification) → list (nat * Notification)) (rt : Runtime) : Runtime :=
  {| signals := signals rt; equals := equals rt; destroyed := destroyed rt;
     injectionContext := injectionContext rt; activeConsumer := activeConsumer rt;
     subscriptions := subscriptions rt; effects := effects rt;
     asap := f (asap rt); setLog := setLog rt |}.

Definition with_setLog (f : list (loc * T) → list (loc * T)) (rt : Runtime) : Runtime :=
  {| signals := signals rt; equals := equals rt; destroyed := destroyed rt;
     injectionContext := injectionContext rt; activeConsumer := activeConsumer rt;
     subscriptions := subscriptions rt; effects := effects rt;
     asap := asap rt; setLog := f (setLog rt) |}.

(** *** Signals *)

(** The default equality of a signal, [Object.is]. *)
Definition Object_is (a b : T) : bool := bool_decide (a = b).

(** [signal(initialValue, options)]: a new signal object, comparing values
    with [options.equal] when given. *)
Definition signal (initialValue : T) (options : option (Options T))
    : M Runtime loc :=
  λ rt, let l := fresh (dom (signals rt)) in
        (inr l,
         with_equals <[l := default Object_is (options ≫= equal)]>
           (with_signals <[l := initialValue]> rt)).

(** The equality function of the signal [l]. *)
Definition equal_of (rt : Runtime) (l : loc) : T → T → bool :=
  default Object_is (equals rt !! l).

Definition mark_dirty (l : loc) (e : Effect) : Effect :=
  if decide (eff_source e = l)
  then {| eff_source := eff_source e; eff_target := eff_target e;
          eff_scope := eff_scope e; eff_dirty := true;
          eff_destroyed := eff_destroyed e |}
  else e.

(** [s.set(v)]: when the signal's equality function holds of the current
    value and [v], nothing is stored and nobody is notified; otherwise [v]
    is stored and the effects that read [s] are marked.  Every call is
    recorded in [setLog]. *)
Definition signal_set (l : loc) (v : T) (rt : Runtime) : Runtime :=
  let rt := with_setLog (λ log, log ++ [(l, v)]) rt in
  let stored := with_effects (fmap (mark_dirty l)) (with_signals <[l := v]> rt) in
  match signals rt !! l with
  | Some old => if equal_of rt l old v then rt else stored
  | None => stored
  end.

(** [assertNotInReactiveContext] *)
Definition assertNotInReactiveContext : M Runtime unit :=
  λ rt, if activeConsumer rt then (inl InReactiveContext, rt) else (inr tt, rt).

(** [inject(Injector)] throws outside an injection context. *)
Definition inject : M Runtime Injector :=
  λ rt, match injectionContext rt with
        | Some i => (inr i, rt)
        | None => (inl NoInjectionContext, rt)
        end.

(** *** Effects *)

(** Registering a teardown on a scope that is already torn down runs it
    at once. *)
Definition scope_destroyed (scope : option DestroyRef) (rt : Runtime) : bool :=
  match scope with
  | Some d => bool_decide (d ∈ destroyed rt)
  | None => false
  end.

(** [injector.get(DestroyRef)]: throws on a destroyed injector that
    checks for it. *)
Definition injector_get (inj : Injector) : M Runtime (option DestroyRef) :=
  λ rt, if assertNotDestroyed inj && scope_destroyed (get_DestroyRef inj) rt
        then (inl InjectorDestroyed, rt)
        else (inr (get_DestroyRef inj), rt).

(** [effect(fn, { injector, allowSignalWrites })]: resolves its
    [DestroyRef] through the injector, which throws when that one is
    destroyed; the effect is scheduled (never run inside the call) and is
    destroyed with the injector's [DestroyRef]. *)
Definition effect (source target : loc) (inj : Injector) : M Runtime unit :=
  (scope <~ injector_get inj ;;
   modify (λ rt,
     with_effects (λ es, es ++ [{| eff_source := source; eff_target := target;
                                   eff_scope := scope; eff_dirty := true;
                                   eff_destroyed := scope_destroyed scope rt |}])
       rt))%M.

Definition clean (e : Effect) : Effect :=
  {| eff_source := eff_source e; eff_target := eff_target e;
     eff_scope := eff_scope e; eff_dirty := false;
     eff_destroyed := eff_destroyed e |}.

(** A scheduling turn runs each live effect that was notified. *)
Definition run_effect (rt : Runtime) (j : nat) : Runtime :=
  match effects rt !! j with
  | Some e =>
      if eff_destroyed e || negb (eff_dirty e) then rt
      else
        let rt := with_effects (alter clean j) rt in
        match signals rt !! eff_source e with
        | Some v => signal_set (eff_target e) v rt
        | None => rt
        end
  | None => rt
  end.

(** A live effect that was notified and has not run since. *)
Definition pending (e : Effect) : bool := negb (eff_destroyed e) && eff_dirty e.

Definition flush_pass (rt : Runtime) : Runtime :=
  foldl run_effect rt (seq 0 (length (effects rt))).

(** The flush goes on while an effect is pending, so an effect notified
    by another one runs in the same turn.  Effects that notify each other
    for ever keep Angular's flush from returning; [fuel] cuts that off. *)
Fixpoint flush_passes (fuel : nat) (rt : Runtime) : Runtime :=
  match fuel with
  | 0 => rt
  | S fuel =>
      if existsb pending (effects rt) then flush_passes fuel (flush_pass rt)
      else rt
  end.

(** A chain of [n] effects settles within [n] passes. *)
Definition flush_effects (rt : Runtime) : Runtime :=
  flush_passes (S (length (effects rt))) rt.

(** *** Observables and the asap scheduler *)

Definition stop (s : Subscription) : Subscription :=
  {| sub_source := sub_source s; sub_until := sub_until s;
     sub_target := sub_target s; sub_closed := sub_closed s;
     sub_stopped := true |}.

Definition close (s : Subscription) : Subscription :=
  {| sub_source := sub_source s; sub_until := sub_until s;
     sub_target := sub_target s; sub_closed := true;
     sub_stopped := sub_stopped s |}.

(** A notification reaching [observeOn(asapScheduler)] of subscription [i]
    is queued, not delivered; after [Complete] the upstream is stopped. *)
Definition notify (n : Notification) (rt : Runtime) (i : nat) : Runtime :=
  match subscriptions rt !! i with
  | Some s =>
      if sub_closed s || sub_stopped s then rt
      else
        let rt := with_asap (λ q, q ++ [(i, n)]) rt in
        match n with
        | Next _ => rt
        | Complete => with_subscriptions (alter stop i) rt
        end
  | None => rt
  end.

(** [source.pipe(observeOn(asapScheduler), operatorFunction).subscribe(v => target.set(v))]
    where [operatorFunction] is [pipe()] ([None]) or
    [takeUntilDestroyed(d)] ([Some d]). *)
Definition subscribe (o : Observable) (operatorFunction : option DestroyRef)
    (target : loc) : M Runtime unit :=
  modify (λ rt,
    let i := length (subscriptions rt) in
    let s := {| sub_source := obs_id o; sub_until := operatorFunction;
                sub_target := target;
                sub_closed := scope_destroyed operatorFunction rt;
                sub_stopped := false |} in
    foldl (λ rt n, notify n rt i)
          (with_subscriptions (λ ss, ss ++ [s]) rt) (obs_onSubscribe o)).

(** One queued asap action runs: the value goes to the subscriber unless
    the subscription was closed in the meantime. *)
Definition run_action (rt : Runtime) (a : nat * Notification) : Runtime :=
  match subscriptions rt !! a.1 with
  | Some s =>
      if sub_closed s then rt
      else match a.2 with
           | Next v => signal_set (sub_target s) v rt
           | Complete => with_subscriptions (alter close a.1) rt
           end
  | None => rt
  end.

Definition flush_asap (rt : Runtime) : Runtime :=
  foldl run_action (with_asap (λ _, []) rt) (asap rt).

(** *** Environment events *)

(** [Emit o n]: the observable [o] sends [n] to its subscribers;
    [SetSignal l v]: [l.set(v)] is called from outside a binding;
    [Destroy d]: the teardown of scope [d] fires; [Tick]: one scheduling
    turn; [SetContext]: the caller enters or leaves an injection context
    or a reactive computation. *)
Inductive Event :=
| Emit (o : nat) (n : Notification)
| SetSignal (l : loc) (v : T)
| Destroy (d : DestroyRef)
| Tick
| SetContext (c : option Injector) (a : bool).

Definition emit (o : nat) (n : Notification) (rt : Runtime) : Runtime :=
  foldl (λ rt i,
           match subscriptions rt !! i with
           | Some s => if decide (sub_source s = o) then notify n rt i else rt
           | None => rt
           end)
        rt (seq 0 (length (subscriptions rt))).

Definition on_destroy_sub (d : DestroyRef) (s : Subscription) : Subscription :=
  if decide (sub_until s = Some d) then close s else s.

Definition on_destroy_eff (d : DestroyRef) (e : Effect) : Effect :=
  if decide (eff_scope e = Some d)
  then {| eff_source := eff_source e; eff_target := eff_target e;
          eff_scope := eff_scope e; eff_dirty := eff_dirty e;
          eff_destroyed := true |}
  else e.

Definition destroy (d : DestroyRef) (rt : Runtime) : Runtime :=
  with_effects (fmap (on_destroy_eff d))
    (with_subscriptions (fmap (on_destroy_sub d))
       (with_destroyed (λ ds, {[d]} ∪ ds) rt)).

Definition step (rt : Runtime) (e : Event) : Runtime :=
  match e with
  | Emit o n => emit o n rt
  | SetSignal l v => signal_set l v rt
  | Destroy d => destroy d rt
  | Tick => flush_effects (flush_asap rt)
  | SetContext c a => with_context c a rt
  end.

Definition run (rt : Runtime) (es : list Event) : Runtime := foldl step rt es.

(** ** The factory and its closure *)

(** The variables captured by the [bindTo] closure; [injectorVar] is the
    local variable [injector] of [bindable]. *)
Record BindableSignal := {
  bindableSignal : loc;
  options : option (Options T);
  injectorVar : option Injector;
  bound : bool;
}.

Definition assertNoDestroyRefOrInjectorProvidedWithManualCleanup
    (options : option (Options T)) : M Runtime unit :=
  if isTrue (options ≫= manualCleanup) then
    if defined (options ≫= destroyRef) || defined (options ≫= injector)
    then throw ManualCleanupWithDestroyRefOrInjector
    else ret tt
  else ret tt.

Definition bindable (initialValue : T) (options : option (Options T))
    : M Runtime BindableSignal :=
  (assertNoDestroyRefOrInjectorProvidedWithManualCleanup options ;;;
   injector <~ (if negb (defined (options ≫= destroyRef))
                   && negb (isTrue (options ≫= manualCleanup))
                then match options ≫= injector with
                     | Some i => ret (Some i)
                     | None => i <~ inject ;; ret (Some i)
                     end
                else ret None) ;;
   bindableSignal <~ signal initialValue options ;;
   ret {| bindableSignal := bindableSignal; options := options;
          injectorVar := injector; bound := false |})%M.

Definition State : Type := BindableSignal * Runtime.

Definition runtime {A} (m : M Runtime A) : M State A :=
  λ st, let '(r, rt) := m st.2 in (r, (st.1, rt)).

Definition closure {A} (f : BindableSignal → A) : M State A := gets (λ st, f st.1).

Definition set_bound (b : bool) : M State unit :=
  modify (λ st, ({| bindableSignal := bindableSignal st.1; options := options st.1;
                    injectorVar := injectorVar st.1; bound := b |}, st.2)).

Definition bindTo (source : Source) : M State loc :=
  (runtime assertNotInReactiveContext ;;;
   bound <~ closure bound ;;
   (if bound : bool then throw AlreadyBound else ret tt) ;;;
   bindableSignal <~ closure bindableSignal ;;
   options <~ closure options ;;
   injector <~ closure injectorVar ;;
   match source with
   | SignalSource s =>
       match injector with
       | None => throw SignalWithoutInjector
       | Some inj => runtime (effect s bindableSignal inj)
       end
   | ObservableSource o =>
       operatorFunction <~
         (if isTrue (options ≫= manualCleanup) then ret None
          else
            destroyRef <~ match options ≫= destroyRef, injector with
                          | Some d, _ => ret (Some d)
                          | None, Some inj => runtime (injector_get inj)
                          | None, None => ret None
                          end ;;
            match destroyRef with
            | None => throw NoDestroyRef
            | Some d => ret (Some d)
            end) ;;
       runtime (subscribe o operatorFunction bindableSignal)
   end ;;;
   set_bound true ;;;
   ret bindableSignal)%M.

(** *** Calls made on a cell over its lifetime *)

Inductive Call := Env (e : Event) | BindTo (source : Source).

Definition call (st : State) (a : Call) : State :=
  match a with
  | Env e => (st.1, step st.2 e)
  | BindTo source => (bindTo source st).2
  end.

Definition calls (st : State) (l : list Call) : State := foldl call st l.

(** Reading the cell: [bindableSignal()]. *)
Definition read (st : State) : option T := signals st.2 !! bindableSignal st.1.

End Bindable.

Arguments BindableSignal : clear implicits.
Arguments Notification : clear implicits.
Arguments Observable : clear implicits.
Arguments Source : clear implicits.
Arguments Runtime : clear implicits.
Arguments Event : clear implicits.
Arguments Call : clear implicits.
Arguments State : clear implicits.

(** ** Vocabulary of the statements *)

Section Vocabulary.
Context {T : Type} `{EqDecision T}.
Implicit Types (rt : Runtime T) (c : BindableSignal T) (st : State T)
  (source : Source T) (es : list (Event T)) (opts : option (Options T))
  (ns nd np : list (Notification T)).

(** The cell [bindable] returns when it returns one. *)
Definition new_cell (initialValue : T) opts (inj : option Injector) rt
    : (Error + BindableSignal T) * Runtime T :=
  let l := fresh (dom (signals rt)) in
  (inr {| bindableSignal := l; options := opts;
          injectorVar := inj; bound := false |},
   with_equals <[l := default Object_is (opts ≫= equal)]>
     (with_signals <[l := initialValue]> rt)).

(** The closure after [bound = true]. *)
Definition mark_bound c : BindableSignal T :=
  {| bindableSignal := bindableSignal c; options := options c;
     injectorVar := injectorVar c; bound := true |}.

(** The handle that ends a subscription to an observable:
    [options?.destroyRef ?? injector?.get(DestroyRef)]. *)
Definition resolved_destroyRef c : option DestroyRef :=
  nullish (options c ≫= destroyRef) (injectorVar c ≫= get_DestroyRef).

(** The operator placed after [observeOn]: [None] for [pipe()]. *)
Definition operatorFunction c : option DestroyRef :=
  if isTrue (options c ≫= manualCleanup) then None else resolved_destroyRef c.

(** An event that is neither a scheduling turn nor a direct write to [l]. *)
Definition inline_event (l : loc) (e : Event T) : Prop :=
  match e with
  | Tick => False
  | SetSignal l' _ => l' ≠ l
  | _ => True
  end.

(** [bindableSignal], [options] and [injector] are constants of the closure. *)
Definition same_closure c c' : Prop :=
  bindableSignal c' = bindableSignal c ∧ options c' = options c
  ∧ injectorVar c' = injectorVar c.

(** [P] holds of every subscription and [Q] of every effect. *)
Definition holds (P : Subscription → Prop) (Q : Effect → Prop) rt : Prop :=
  Forall P (subscriptions rt) ∧ Forall Q (effects rt).

(** A runtime in which nothing has been installed or queued yet. *)
Definition no_bindings rt : Prop :=
  subscriptions rt = [] ∧ effects rt = [] ∧ asap rt = [].




(** Every subscription is closed and every effect destroyed. *)
Definition quiet rt : Prop :=
  holds (λ s, sub_closed s = true) (λ e, eff_destroyed e = true) rt.

(** The values an observable delivers: those before its completion. *)
Fixpoint values ns : list T :=
  match ns with
  | Next v :: ns => v :: values ns
  | Complete :: _ => []
  | [] => []
  end.

(** Whether a completion is among the notifications. *)
Fixpoint completed ns : bool :=
  match ns with
  | Next _ :: ns => completed ns
  | Complete :: _ => true
  | [] => false
  end.

(** The notifications up to and including the completion. *)
Fixpoint upto ns : list (Notification T) :=
  match ns with
  | Next v :: ns => Next v :: upto ns
  | Complete :: _ => [Complete]
  | [] => []
  end.

(** What the observable [o] sends during a run of events. *)
Definition emitted (o : nat) es : list (Notification T) :=
  es ≫= λ e, match e with
             | Emit o' n => if decide (o' = o) then [n] else []
             | _ => []
             end.

(** The values passed to [set] on the signal [l] so far, oldest first. *)
Definition set_calls (l : loc) rt : list T :=
  omap (λ p, if decide (p.1 = l) then Some p.2 else None) (setLog rt).

(** What a signal holds after [set] was called with each of [vs] in turn:
    a value its equality function takes for the current one is dropped. *)
Definition settle (eq : T → T → bool) (cur : option T) (vs : list T)
    : option T :=
  foldl (λ cur v, match cur with
                  | Some old => if eq old v then Some old else Some v
                  | None => Some v
                  end) cur vs.

(** [a] is what a signal holding [a] keeps when [set(b)] is called. *)
Definition up_to (eq : T → T → bool) (a b : T) : Prop :=
  a = b ∨ eq a b = true.

(** The events considered while the binding of the cell [l] is observed:
    anything but a direct [set] on the cell and the teardown of the
    binding's own scope. *)
Definition stream_event (op : option DestroyRef) (l : loc) (e : Event T)
    : Prop :=
  match e with
  | SetSignal l' _ => l' ≠ l
  | Destroy d => op ≠ Some d
  | _ => True
  end.

(** The runtime of a cell whose only binding is a subscription to [o]:
    [nd] are the notifications received before the last scheduling turn,
    [np] those received since. *)
Definition stream_inv (o : nat) (op : option DestroyRef) (l : loc)
    (eq : T → T → bool) (calls0 : list T) (v0 : option T) nd np rt : Prop :=
  subscriptions rt =
    [{| sub_source := o; sub_until := op; sub_target := l;
        sub_closed := completed nd; sub_stopped := completed (nd ++ np) |}]
  ∧ effects rt = []
  ∧ asap rt = (if completed nd then [] else (λ n, (0, n)) <$> upto np)
  ∧ equal_of rt l = eq
  ∧ set_calls l rt = calls0 ++ values nd
  ∧ signals rt !! l = settle eq v0 (values nd).




(** What the cell has to mirror after a run of events: for an observable
    the [set] calls made since the binding are exactly the values it has
    delivered, in order, and the cell holds what these calls leave; for a
    signal a [set] of the source's value would leave the cell as it is. *)
Definition mirrors source (l : loc) es (rt rt' : Runtime T) : Prop :=
  match source with
  | SignalSource s =>
      ∃ vs vl, signals rt' !! s = Some vs ∧ signals rt' !! l = Some vl
               ∧ up_to (equal_of rt l) vl vs
  | ObservableSource o =>
      let vs := values (obs_onSubscribe o ++ emitted (obs_id o) es) in
      set_calls l rt' = set_calls l rt ++ vs
      ∧ signals rt' !! l = settle (equal_of rt l) (signals rt !! l) vs
  end.

(** The same for a cell with the default equality: it reads the last
    value delivered, or what the source reads. *)
Definition mirrors_default source (l : loc) es (rt rt' : Runtime T) : Prop :=
  match source with
  | SignalSource s => signals rt' !! l = signals rt' !! s
  | ObservableSource o =>
      let vs := values (obs_onSubscribe o ++ emitted (obs_id o) es) in
      signals rt' !! l = from_option Some (signals rt !! l) (last vs)
  end.

(** The teardown handle a cell ends up with, in the order the factory
    and [bindTo] look for it: none with [manualCleanup: true]; else the
    [destroyRef] option; else the [DestroyRef] of the [injector] option;
    else that of the injector of the injection context. *)
Definition resolved_scope opts rt : option DestroyRef :=
  if isTrue (opts ≫= manualCleanup) then None
  else match opts ≫= destroyRef with
       | Some d => Some d
       | None =>
           match opts ≫= injector with
           | Some i => get_DestroyRef i
           | None => injectionContext rt ≫= get_DestroyRef
           end
       end.

(** The injector [bindable] captures when it captures one:
    [options?.injector ?? inject(Injector)]. *)
Definition captured opts rt : option Injector :=
  nullish (opts ≫= injector) (injectionContext rt).

(** [injector.get] does not throw. *)
Definition injector_alive (inj : Injector) rt : bool :=
  negb (assertNotDestroyed inj && scope_destroyed (get_DestroyRef inj) rt).


(** The environment events among the calls made on a cell. *)
Definition env_events (cs : list (Call T)) : list (Event T) :=
  cs ≫= λ a, match a with Env e => [e] | BindTo _ => [] end.

(** The values passed to [set] on [l] by the events [es]. *)
Definition direct_sets (l : loc) es : list T :=
  es ≫= λ e, match e with
             | SetSignal l' v => if decide (l' = l) then [v] else []
             | _ => []
             end.



End Vocabulary.

(** ** Sample inputs *)

(** An injector of Angular resolving [DestroyRef] to [d], and a test
    double whose [get] returns nothing. *)
Definition real_injector (d : DestroyRef) : Injector :=
  {| get_DestroyRef := Some d; assertNotDestroyed := true |}.
Definition mock_injector : Injector :=
  {| get_DestroyRef := None; assertNotDestroyed := false |}.

(** A runtime outside any injection context, with one foreign signal
    [0 ↦ 5] and nothing installed. *)
Definition rt_outside : Runtime nat :=
  {| signals := {[0 := 5]}; equals := ∅; destroyed := ∅;
     injectionContext := None;
     activeConsumer := false; subscriptions := []; effects := [];
     asap := []; setLog := [] |}.

(** The same inside an injection context whose injector resolves
    [DestroyRef] to the handle [1]. *)
Definition rt_inside : Runtime nat :=
  {| signals := {[0 := 5]}; equals := ∅; destroyed := ∅;
     injectionContext := Some (real_injector 1);
     activeConsumer := false; subscriptions := []; effects := [];
     asap := []; setLog := [] |}.

Definition with_destroyRef : Options nat :=
  {| equal := None; destroyRef := Some 7; injector := None;
     manualCleanup := Some false |}.
Definition with_injector : Options nat :=
  {| equal := None; destroyRef := None; injector := Some (real_injector 7);
     manualCleanup := None |}.
Definition with_manualCleanup : Options nat :=
  {| equal := None; destroyRef := None; injector := None;
     manualCleanup := Some true |}.
Definition manual_with_destroyRef : Options nat :=
  {| equal := None; destroyRef := Some 7; injector := None;
     manualCleanup := Some true |}.

(** A cell that takes every value for the one it holds. *)
Definition always_equal : Options nat :=
  {| equal := Some (λ _ _, true); destroyRef := None; injector := None;
     manualCleanup := Some true |}.

(** A [BehaviorSubject] holding [10], and a later run of the event loop. *)
Definition behavior_subject : Observable nat :=
  {| obs_id := 4; obs_onSubscribe := [Next 10] |}.
Definition two_turns : list (Event nat) :=
  [Tick; Emit 4 (Next 12); Emit 4 (Next 13)].
Definition after_teardown : list (Event nat) :=
  [Emit 4 (Next 14); Tick; SetSignal 0 15; Tick].


(** An observable that emits [10] and completes on subscription; a run in
    which scopes are torn down while the source goes on emitting; calls on
    a cell among which every [bindTo] throws. *)
Definition completing : Observable nat :=
  {| obs_id := 4; obs_onSubscribe := [Next 10; Complete] |}.
Definition teardowns : list (Event nat) :=
  [Destroy 1; Tick; Destroy 7; Emit 4 (Next 12); Emit 4 (Next 13)].
Definition failed_attempts : list (Call nat) :=
  [Env (SetContext None true); BindTo (SignalSource 0); Env (SetSignal 1 8);
   Env (Emit 4 (Next 12)); Env Tick; Env (SetSignal 0 9)].
Definition no_DestroyRef : Options nat :=
  {| equal := None; destroyRef := None; injector := Some mock_injector;
     manualCleanup := None |}.
Definition destroyRef_and_injector : Options nat :=
  {| equal := None; destroyRef := Some 7; injector := Some (real_injector 2);
     manualCleanup := None |}.

(** Create a cell holding [3], bind it, let the events happen, read it. *)
Definition scenario (opts : option (Options nat)) (rt : Runtime nat)
    (source : Source nat) (es : list (Event nat)) : Error + option nat :=
  match bindable 3 opts rt with
  | (inl e, _) => inl e
  | (inr c, rt1) =>
      match bindTo source (c, rt1) with
      | (inl e, _) => inl e
      | (inr _, st) => inr (read (st.1, run st.2 es))
      end
  end.

(** ** Construction *)

Section Construction.
Context {T : Type} `{EqDecision T}.
Implicit Types (rt : Runtime T) (opts : option (Options T)).

Lemma bindable_unfold initialValue opts rt :
  bindable initialValue opts rt =
    if isTrue (opts ≫= manualCleanup)
    then if defined (opts ≫= destroyRef) || defined (opts ≫= injector)
         then (inl ManualCleanupWithDestroyRefOrInjector, rt)
         else new_cell initialValue opts None rt
    else if defined (opts ≫= destroyRef)
         then new_cell initialValue opts None rt
         else match nullish (opts ≫= injector) (injectionContext rt) with
              | Some i => new_cell initialValue opts (Some i) rt
              | None => (inl NoInjectionContext, rt)
              end.
Proof.
  unfold bindable, bind, assertNoDestroyRefOrInjectorProvidedWithManualCleanup,
    inject, new_cell.
  destruct (isTrue _) eqn:Hm, (defined (opts ≫= destroyRef)) eqn:Hd; simpl;
    try done.
  - by destruct (defined (opts ≫= injector)).
  - destruct (opts ≫= injector); simpl; [done|].
    by destruct (injectionContext rt).
Qed.

Lemma bindable_inv initialValue opts rt c rt1 :
  bindable initialValue opts rt = (inr c, rt1) →
  bindableSignal c = fresh (dom (signals rt))
  ∧ options c = opts
  ∧ bound c = false
  ∧ rt1 = with_equals <[bindableSignal c := default Object_is (opts ≫= equal)]>
            (with_signals <[bindableSignal c := initialValue]> rt)
  ∧ injectorVar c =
      (if isTrue (opts ≫= manualCleanup) || defined (opts ≫= destroyRef)
       then None
       else nullish (opts ≫= injector) (injectionContext rt))
  ∧ (isTrue (opts ≫= manualCleanup) = false
     → defined (opts ≫= destroyRef) = false → is_Some (injectorVar c)).
Proof.
  rewrite bindable_unfold. unfold new_cell.
  destruct (isTrue _), (defined (opts ≫= destroyRef)) eqn:Hd;
    cbn [orb]; repeat case_match; intros [= <- <-]; cbn [bindableSignal
      options bound injectorVar]; repeat split; eauto; done.
Qed.

(** C7: with [manualCleanup: true], construction throws, before any signal
    is created, as soon as a [destroyRef] or an [injector] is supplied as
    well; with neither of them it returns a cell. *)
Theorem construction_manual_cleanup (initialValue : T) (o : Options T) rt :
  manualCleanup o = Some true →
  (defined (destroyRef o) || defined (injector o) = true →
     bindable initialValue (Some o) rt
     = (inl ManualCleanupWithDestroyRefOrInjector, rt))
  ∧ (destroyRef o = None → injector o = None →
     ∃ c rt1, bindable initialValue (Some o) rt = (inr c, rt1)).
Proof.
  intros Hm. rewrite bindable_unfold. simpl. rewrite Hm. simpl. split.
  - by intros ->.
  - intros -> ->. simpl. unfold new_cell. eauto.
Qed.

(** C8: outside an injection context, construction throws when neither
    [destroyRef] nor [injector] is given and [manualCleanup] is not [true];
    giving any one of the three makes it return a cell. *)
Theorem construction_without_context (initialValue : T) opts rt :
  injectionContext rt = None →
  let d := opts ≫= destroyRef in
  let i := opts ≫= injector in
  let m := isTrue (opts ≫= manualCleanup) in
  (d = None → i = None → m = false →
     bindable initialValue opts rt = (inl NoInjectionContext, rt))
  ∧ (is_Some d → i = None → m = false →
     ∃ c rt1, bindable initialValue opts rt = (inr c, rt1))
  ∧ (d = None → is_Some i → m = false →
     ∃ c rt1, bindable initialValue opts rt = (inr c, rt1))
  ∧ (d = None → i = None → m = true →
     ∃ c rt1, bindable initialValue opts rt = (inr c, rt1)).
Proof.
  intros Hctx d i m. subst d i m. rewrite bindable_unfold, Hctx.
  unfold new_cell.
  repeat split.
  - by intros -> -> ->.
  - intros [d ->] -> ->. simpl. eauto.
  - intros -> [i ->] ->. simpl. eauto.
  - intros -> -> ->. simpl. eauto.
Qed.

End Construction.

(** ** One call of [bindTo] *)

Section BindTo.
Context {T : Type} `{EqDecision T}.
Implicit Types (rt : Runtime T) (c : BindableSignal T) (st : State T)
  (source : Source T) (es : list (Event T)).

Lemma effect_alive (s l : loc) inj rt :
  injector_alive inj rt = true →
  effect s l inj rt =
    (inr tt,
     with_effects
       (λ effs, effs ++ [{| eff_source := s; eff_target := l;
                        eff_scope := get_DestroyRef inj; eff_dirty := true;
                        eff_destroyed :=
                          scope_destroyed (get_DestroyRef inj) rt |}]) rt).
Proof.
  unfold injector_alive, effect, bind, injector_get, modify.
  by destruct (_ && _).
Qed.

Lemma effect_destroyed (s l : loc) inj rt :
  injector_alive inj rt = false →
  effect s l inj rt = (inl InjectorDestroyed, rt).
Proof.
  unfold injector_alive, effect, bind, injector_get, modify.
  by destruct (_ && _).
Qed.

Lemma bindTo_unfold source c rt :
  bindTo source (c, rt) =
    if activeConsumer rt then (inl InReactiveContext, (c, rt))
    else if bound c then (inl AlreadyBound, (c, rt))
    else match source with
         | SignalSource s =>
             match injectorVar c with
             | None => (inl SignalWithoutInjector, (c, rt))
             | Some inj =>
                 if injector_alive inj rt
                 then (inr (bindableSignal c),
                       (mark_bound c, (effect s (bindableSignal c) inj rt).2))
                 else (inl InjectorDestroyed, (c, rt))
             end
         | ObservableSource o =>
             if isTrue (options c ≫= manualCleanup)
             then (inr (bindableSignal c),
                   (mark_bound c, (subscribe o None (bindableSignal c) rt).2))
             else if defined (options c ≫= destroyRef)
                     || from_option (λ inj, injector_alive inj rt) true
                          (injectorVar c)
             then match resolved_destroyRef c with
                  | None => (inl NoDestroyRef, (c, rt))
                  | Some d =>
                      (inr (bindableSignal c),
                       (mark_bound c,
                        (subscribe o (Some d) (bindableSignal c) rt).2))
                  end
             else (inl InjectorDestroyed, (c, rt))
         end.
Proof.
  unfold bindTo, bind, runtime, assertNotInReactiveContext, closure, gets,
    throw, ret, set_bound, resolved_destroyRef.
  cbn [fst snd].
  destruct (activeConsumer rt); [done|]. cbn [fst snd].
  destruct (bound c); [done|]. cbn [fst snd].
  destruct source as [s|o].
  - destruct (injectorVar c) as [inj|]; [|done].
    cbn [fst snd]. destruct (injector_alive inj rt) eqn:Ha.
    + by rewrite !effect_alive.
    + by rewrite effect_destroyed.
  - destruct (isTrue _); [done|].
    destruct (options c ≫= destroyRef) as [d|]; [done|].
    destruct (injectorVar c) as [inj|]; [|done].
    cbn [defined orb from_option nullish mbind option_bind].
    unfold injector_alive, injector_get.
    destruct (_ && _); cbn [negb fst snd]; [done|].
    by destruct (get_DestroyRef inj).
Qed.

(** A call that throws leaves the closure variables and the runtime as
    they were. *)
Lemma bindTo_throws source st e st' :
  bindTo source st = (inl e, st') → st' = st.
Proof.
  destruct st as [c rt]. rewrite bindTo_unfold.
  repeat case_match; by intros [= <-].
Qed.

Lemma bindTo_returns source st l st' :
  bindTo source st = (inr l, st') →
  activeConsumer st.2 = false ∧ bound st.1 = false
  ∧ l = bindableSignal st.1 ∧ st'.1 = mark_bound st.1.
Proof.
  destruct st as [c rt]. rewrite bindTo_unfold.
  repeat case_match; intros [= <- <-]; done.
Qed.

Lemma bindTo_installs source c rt l st' :
  bindTo source (c, rt) = (inr l, st') →
  match source with
  | SignalSource s =>
      ∃ inj, injectorVar c = Some inj ∧ injector_alive inj rt = true
             ∧ st'.2 = (effect s (bindableSignal c) inj rt).2
  | ObservableSource o =>
      (isTrue (options c ≫= manualCleanup) = false
       → is_Some (resolved_destroyRef c))
      ∧ st'.2 = (subscribe o (operatorFunction c) (bindableSignal c) rt).2
  end.
Proof.
  rewrite bindTo_unfold. unfold operatorFunction.
  destruct (activeConsumer rt); [done|]. destruct (bound c); [done|].
  destruct source as [s|o].
  - destruct (injectorVar c) as [inj|]; [|done].
    destruct (injector_alive inj rt) eqn:Ha; [|done]. intros [= <- <-].
    rewrite <- Ha. eauto.
  - destruct (isTrue _).
    + intros [= <- <-]. done.
    + destruct (_ || _); [|done].
      destruct (resolved_destroyRef c) as [d|]; [|done].
      intros [= <- <-]. eauto.
Qed.

Lemma bindTo_bound source c rt :
  bound c = true → ∃ e, bindTo source (c, rt) = (inl e, (c, rt)).
Proof.
  intros Hb. rewrite bindTo_unfold, Hb. destruct (activeConsumer rt); eauto.
Qed.

(** *** What the runtime operations leave alone *)

Lemma signals_notify n rt i : signals (notify n rt i) = signals rt.
Proof. unfold notify. by repeat case_match. Qed.

Lemma setLog_notify n rt i : setLog (notify n rt i) = setLog rt.
Proof. unfold notify. by repeat case_match. Qed.

Lemma effects_notify n rt i : effects (notify n rt i) = effects rt.
Proof. unfold notify. by repeat case_match. Qed.

Lemma foldl_preserves {A B C} (f : A → B → A) (g : A → C) (l : list B) a :
  (∀ a b, g (f a b) = g a) → g (foldl f a l) = g a.
Proof.
  intros Hf. revert a. induction l as [|b l IH]; intros a; [done|].
  simpl. by rewrite IH.
Qed.

Lemma foldl_invariant {A B} (I : A → Prop) (f : A → B → A) (l : list B) a :
  I a → (∀ a b, I a → I (f a b)) → I (foldl f a l).
Proof.
  intros Ha Hf. revert a Ha. induction l as [|b l IH]; intros a Ha; [done|].
  simpl. apply IH, Hf, Ha.
Qed.

Lemma flush_effects_invariant (I : Runtime T → Prop) rt :
  I rt → (∀ rt j, I rt → I (run_effect rt j)) → I (flush_effects rt).
Proof.
  intros Hrt Hf. unfold flush_effects.
  generalize (S (length (effects rt))) as fuel. intros fuel. revert rt Hrt.
  induction fuel as [|fuel IH]; intros rt Hrt; [done|].
  cbn [flush_passes]. destruct (existsb pending (effects rt)); [|done].
  apply IH. unfold flush_pass. by apply foldl_invariant.
Qed.

Lemma flush_effects_idle rt :
  existsb pending (effects rt) = false → flush_effects rt = rt.
Proof. intros Hp. unfold flush_effects. cbn [flush_passes]. by rewrite Hp. Qed.


Lemma signals_subscribe o op l rt :
  signals (subscribe o op l rt).2 = signals rt.
Proof.
  unfold subscribe, modify. cbn [snd].
  by rewrite (foldl_preserves _ signals) by (intros; apply signals_notify).
Qed.

Lemma setLog_subscribe o op l rt :
  setLog (subscribe o op l rt).2 = setLog rt.
Proof.
  unfold subscribe, modify. cbn [snd].
  by rewrite (foldl_preserves _ setLog) by (intros; apply setLog_notify).
Qed.

Lemma signals_effect s l inj rt : signals (effect s l inj rt).2 = signals rt.
Proof.
  unfold effect, bind, injector_get, modify. by destruct (_ && _).
Qed.

Lemma setLog_effect s l inj rt : setLog (effect s l inj rt).2 = setLog rt.
Proof.
  unfold effect, bind, injector_get, modify. by destruct (_ && _).
Qed.

Lemma signals_emit o n rt : signals (emit o n rt) = signals rt.
Proof.
  unfold emit. apply (foldl_preserves _ signals).
  intros. repeat case_match; auto using signals_notify.
Qed.

Lemma setLog_emit o n rt : setLog (emit o n rt) = setLog rt.
Proof.
  unfold emit. apply (foldl_preserves _ setLog).
  intros. repeat case_match; auto using setLog_notify.
Qed.

Lemma signal_set_lookup l v rt :
  signals (signal_set l v rt) !! l
  = settle (equal_of rt l) (signals rt !! l) [v].
Proof.
  unfold signal_set, settle. cbn [foldl signals with_setLog].
  destruct (signals rt !! l) as [old|] eqn:Hl.
  - change (equal_of (with_setLog _ rt) l) with (equal_of rt l).
    destruct (equal_of rt l old v); [done|].
    cbn [signals with_effects with_signals with_setLog].
    apply lookup_insert_eq.
  - cbn [signals with_effects with_signals with_setLog].
    apply lookup_insert_eq.
Qed.

Lemma signal_set_lookup_ne l l' v rt :
  l ≠ l' → signals (signal_set l v rt) !! l' = signals rt !! l'.
Proof.
  intros Hne. unfold signal_set. repeat case_match; try done;
    cbn [signals with_effects with_signals with_setLog];
    by apply lookup_insert_ne.
Qed.

Lemma equals_signal_set l v rt : equals (signal_set l v rt) = equals rt.
Proof. unfold signal_set. by repeat case_match. Qed.

Lemma setLog_signal_set l v rt :
  setLog (signal_set l v rt) = setLog rt ++ [(l, v)].
Proof. unfold signal_set. by repeat case_match. Qed.

Lemma subscriptions_signal_set l v rt :
  subscriptions (signal_set l v rt) = subscriptions rt.
Proof. unfold signal_set. by repeat case_match. Qed.

Lemma asap_signal_set l v rt : asap (signal_set l v rt) = asap rt.
Proof. unfold signal_set. by repeat case_match. Qed.

Lemma effects_signal_set l v rt :
  effects (signal_set l v rt) = effects rt
  ∨ effects (signal_set l v rt) = mark_dirty l <$> effects rt.
Proof. unfold signal_set. repeat case_match; auto. Qed.

Lemma equals_notify n rt i : equals (notify n rt i) = equals rt.
Proof. unfold notify. by repeat case_match. Qed.

Lemma equals_subscribe o op l rt : equals (subscribe o op l rt).2 = equals rt.
Proof.
  unfold subscribe, modify. cbn [snd].
  by rewrite (foldl_preserves _ equals) by (intros; apply equals_notify).
Qed.

Lemma equals_effect s l inj rt : equals (effect s l inj rt).2 = equals rt.
Proof.
  unfold effect, bind, injector_get, modify. by destruct (_ && _).
Qed.

Lemma equals_step rt e : equals (step rt e) = equals rt.
Proof.
  destruct e as [o n|l v|d| |ctx a]; cbn [step]; try done.
  - unfold emit. apply (foldl_preserves _ equals).
    intros. repeat case_match; auto using equals_notify.
  - apply equals_signal_set.
  - apply (flush_effects_invariant (λ rt', equals rt' = equals rt)).
    + unfold flush_asap. apply (foldl_invariant (λ rt', equals rt' = equals rt));
        [done|].
      intros rt' a <-. unfold run_action.
      repeat case_match; try done. apply equals_signal_set.
    + intros rt' j <-. unfold run_effect.
      repeat case_match; try done. by rewrite equals_signal_set.
Qed.

Lemma equal_of_step rt e l : equal_of (step rt e) l = equal_of rt l.
Proof. unfold equal_of. by rewrite equals_step. Qed.

(** A signal object never goes away. *)
Lemma signal_set_is_Some l l' v rt :
  is_Some (signals rt !! l) → is_Some (signals (signal_set l' v rt) !! l).
Proof.
  intros Hl. destruct (decide (l' = l)) as [->|Hne].
  - rewrite signal_set_lookup. unfold settle. cbn [foldl].
    destruct (signals rt !! l); [|done]. by destruct (equal_of rt l _ _).
  - by rewrite signal_set_lookup_ne.
Qed.

Lemma step_is_Some l rt e :
  is_Some (signals rt !! l) → is_Some (signals (step rt e) !! l).
Proof.
  intros Hl. destruct e as [o n|l' v|d| |ctx a]; cbn [step]; try done.
  - by rewrite signals_emit.
  - by apply signal_set_is_Some.
  - apply (flush_effects_invariant (λ rt', is_Some (signals rt' !! l))).
    + unfold flush_asap.
      apply (foldl_invariant (λ rt', is_Some (signals rt' !! l))); [done|].
      intros rt' a Hrt'. unfold run_action.
      repeat case_match; try done. by apply signal_set_is_Some.
    + intros rt' j Hrt'. unfold run_effect.
      repeat case_match; try done. by apply signal_set_is_Some.
Qed.

Lemma step_inline l e rt :
  inline_event l e → signals (step rt e) !! l = signals rt !! l.
Proof.
  destruct e as [o n|l' v|d| |ctx a]; cbn [inline_event step]; intros He.
  - by rewrite signals_emit.
  - by apply signal_set_lookup_ne.
  - done.
  - done.
  - done.
Qed.

Lemma run_inline l es rt :
  Forall (inline_event l) es → signals (run rt es) !! l = signals rt !! l.
Proof.
  intros Hes. revert rt. induction Hes as [|e es He _ IH]; intros rt; [done|].
  cbn [run foldl]. fold (run (step rt e) es).
  rewrite IH. by apply step_inline.
Qed.

End BindTo.

(** ** The binding life cycle *)

Section LifeCycle.
Context {T : Type} `{EqDecision T}.
Implicit Types (rt : Runtime T) (c : BindableSignal T) (st : State T)
  (source : Source T) (es : list (Event T)) (cs : list (Call T)).

Lemma run_snoc rt es e : run rt (es ++ [e]) = step (run rt es) e.
Proof. unfold run. by rewrite foldl_app. Qed.

Lemma run_app rt es es' : run rt (es ++ es') = run (run rt es) es'.
Proof. unfold run. by rewrite foldl_app. Qed.

Lemma call_closure st a :
  same_closure st.1 (call st a).1 ∧ (bound st.1 = true → bound (call st a).1 = true).
Proof.
  destruct a as [e|source]; cbn [call fst]; [done|].
  destruct (bindTo source st) as [[e|l] st'] eqn:Hb; cbn [snd].
  - by rewrite (bindTo_throws _ _ _ _ Hb).
  - apply bindTo_returns in Hb as (_ & _ & _ & ->). done.
Qed.

Lemma calls_closure st cs :
  same_closure st.1 (calls st cs).1
  ∧ (bound st.1 = true → bound (calls st cs).1 = true).
Proof.
  revert st. induction cs as [|a cs IH]; intros st; [done|].
  cbn [calls foldl]. fold (calls (call st a) cs).
  destruct (IH (call st a)) as ((? & ? & ?) & ?).
  destruct (call_closure st a) as ((? & ? & ?) & ?).
  unfold same_closure. repeat split; try congruence. auto.
Qed.

Lemma bindTo_frame source st r st' :
  bindTo source st = (r, st') →
  signals st'.2 = signals st.2 ∧ equals st'.2 = equals st.2
  ∧ setLog st'.2 = setLog st.2.
Proof.
  destruct r as [e|l]; [by intros ->%bindTo_throws|].
  destruct st as [c rt]. intros Hb. apply bindTo_installs in Hb.
  destruct source; [destruct Hb as (? & _ & _ & ->)|destruct Hb as (_ & ->)];
    cbn [snd]; repeat split;
    first [ apply signals_subscribe | apply setLog_subscribe
          | apply signals_effect | apply setLog_effect
          | apply equals_subscribe | apply equals_effect ].
Qed.

(** The signal of a cell exists, with the equality function it was
    created with, all through the life of the cell. *)
Lemma cell_persists (initialValue : T) (opts : option (Options T)) rt c rt1 cs :
  bindable initialValue opts rt = (inr c, rt1) →
  bindableSignal (calls (c, rt1) cs).1 = bindableSignal c
  ∧ is_Some (read (calls (c, rt1) cs))
  ∧ equal_of (calls (c, rt1) cs).2 (bindableSignal c)
    = default Object_is (opts ≫= equal).
Proof.
  intros Hc. destruct (calls_closure (c, rt1) cs) as ((Hl & _) & _).
  split; [done|]. unfold read. rewrite Hl. clear Hl.
  apply bindable_inv in Hc as (_ & _ & _ & -> & _).
  set (l := bindableSignal c). set (eq := default Object_is (opts ≫= equal)).
  assert (∀ st0 : State T,
    is_Some (signals st0.2 !! l) → equals st0.2 !! l = Some eq →
    is_Some (signals (calls st0 cs).2 !! l)
    ∧ equal_of (calls st0 cs).2 l = eq) as Hind.
  { clear. induction cs as [|a cs IH]; intros st0 Hs He.
    - split; [done|]. unfold equal_of, calls. cbn [foldl]. by rewrite He.
    - cbn [calls foldl]. fold (calls (call st0 a) cs). apply IH.
      + destruct a as [e|source]; cbn [call snd]; [by apply step_is_Some|].
        destruct (bindTo source st0) as [r st'] eqn:Hb. cbn [snd].
        apply bindTo_frame in Hb as (-> & _). done.
      + destruct a as [e|source]; cbn [call snd]; [by rewrite equals_step|].
        destruct (bindTo source st0) as [r st'] eqn:Hb. cbn [snd].
        apply bindTo_frame in Hb as (_ & -> & _). done. }
  apply Hind; cbn [snd signals equals with_equals with_signals].
  - rewrite lookup_insert_eq. eauto.
  - apply lookup_insert_eq.
Qed.

(** C9: a [bindTo] call that throws has changed nothing: the closure
    variables (so [bound] keeps its value, [false] if it was [false]), the
    cell's value, the subscriptions, the effects and the asap queue are
    those from before the call. *)
Theorem bindTo_failure_atomic source st (e : Error) st' :
  bindTo source st = (inl e, st') →
  st' = st
  ∧ (bound st.1 = false → bound st'.1 = false)
  ∧ read st' = read st
  ∧ subscriptions st'.2 = subscriptions st.2
  ∧ effects st'.2 = effects st.2
  ∧ asap st'.2 = asap st.2.
Proof. intros ->%bindTo_throws. done. Qed.

(** C2: [bound] is [false] in a new cell; a [bindTo] that returns sets it;
    from then on, whatever is called on the cell and whatever the
    environment does, it stays [true] and every further [bindTo] throws,
    for any source and any options. *)
Theorem single_bind (initialValue : T) (opts : option (Options T)) rt c rt1
    cs0 source l st' cs source' :
  bindable initialValue opts rt = (inr c, rt1) →
  bindTo source (calls (c, rt1) cs0) = (inr l, st') →
  bound c = false
  ∧ bound st'.1 = true
  ∧ bound (calls st' cs).1 = true
  ∧ ∃ e, bindTo source' (calls st' cs) = (inl e, calls st' cs).
Proof.
  intros Hc Hb.
  apply bindable_inv in Hc as (_ & _ & Hc & _).
  apply bindTo_returns in Hb as (_ & _ & _ & Hb).
  assert (bound st'.1 = true) as Hst' by by rewrite Hb.
  destruct (calls_closure st' cs) as [_ Hcs]. specialize (Hcs Hst').
  repeat split; try done.
  destruct (calls st' cs) as [c' rt']. by apply bindTo_bound.
Qed.

(** C3: a [bindTo] that returns has written nothing into the cell, whatever
    the source delivers on subscription; afterwards the value stays the
    one from before the call until a scheduling turn (or a direct [set] on
    the cell) happens. *)
Theorem bindTo_keeps_value source st l st' es :
  bindTo source st = (inr l, st') →
  Forall (inline_event l) es →
  read st' = read st
  ∧ setLog st'.2 = setLog st.2
  ∧ read (st'.1, run st'.2 es) = read st.
Proof.
  intros Hb Hes. destruct st as [c rt].
  pose proof (bindTo_returns _ _ _ _ Hb) as (_ & _ & -> & Hc).
  assert (signals st'.2 = signals rt ∧ setLog st'.2 = setLog rt) as [Hs Hl].
  { apply bindTo_installs in Hb.
    destruct source; [destruct Hb as (? & _ & _ & ->)|destruct Hb as (_ & ->)];
      split; first [ apply signals_subscribe | apply setLog_subscribe
                   | apply signals_effect | apply setLog_effect ]. }
  unfold read. cbn [fst snd] in *. rewrite Hc. cbn [bindableSignal mark_bound].
  rewrite run_inline by done. by rewrite Hs.
Qed.

(** C10 (as the code has it): a [bindTo] that returns, returns the signal
    object of the cell, and binding leaves the write surface as it is: at
    any later point of the cell's life a direct [set v] on it stores [v]
    unless the equality function the cell was created with takes [v] for
    the value it holds, as for an unbound signal; with the default
    equality the cell then reads [v]. *)
Theorem bindTo_returns_writable_cell (initialValue : T)
    (opts : option (Options T)) rt c rt1 cs0 source l st' cs (v : T) :
  bindable initialValue opts rt = (inr c, rt1) →
  bindTo source (calls (c, rt1) cs0) = (inr l, st') →
  let st := calls st' cs in
  l = bindableSignal c
  ∧ bindableSignal st.1 = l
  ∧ (∃ old, read st = Some old
       ∧ read (st.1, step st.2 (SetSignal l v))
         = Some (if default Object_is (opts ≫= equal) old v then old else v))
  ∧ (opts ≫= equal = None → read (st.1, step st.2 (SetSignal l v)) = Some v).
Proof.
  intros Hc Hb st.
  pose proof (cell_persists _ _ _ _ _ (cs0 ++ BindTo source :: cs) Hc)
    as (Hl & [old Hold] & Heq).
  assert (calls (c, rt1) (cs0 ++ BindTo source :: cs) = st) as Hst.
  { subst st. unfold calls. rewrite foldl_app. cbn [foldl call].
    fold (calls (c, rt1) cs0). by rewrite Hb. }
  rewrite Hst in Hl, Hold, Heq.
  apply bindTo_returns in Hb as (_ & _ & Hret & _).
  destruct (calls_closure (c, rt1) cs0) as ((Hl0 & _) & _).
  cbn [fst] in Hl0. rewrite Hl0 in Hret. subst l.
  assert (read (st.1, step st.2 (SetSignal (bindableSignal c) v))
          = Some (if default Object_is (opts ≫= equal) old v then old else v))
    as Hset.
  { unfold read. cbn [fst snd step]. rewrite Hl, signal_set_lookup, Heq.
    unfold read in Hold. rewrite Hl in Hold. rewrite Hold.
    unfold settle. cbn [foldl]. by destruct (default _ _ old v). }
  repeat split; [done|by exists old|].
  intros Hnone. rewrite Hset, Hnone. cbn [default]. unfold Object_is.
  by case_bool_decide; subst.
Qed.

(** C6: a cell made with [manualCleanup: true] never accepts a signal:
    at any point of its life [bindTo] on a signal throws, and the closure
    variables and the runtime (value, subscriptions, effects) are as
    before the call. *)
Theorem manual_cleanup_rejects_signal (initialValue : T) (o : Options T)
    rt c rt1 cs (s : loc) :
  manualCleanup o = Some true →
  bindable initialValue (Some o) rt = (inr c, rt1) →
  let st := calls (c, rt1) cs in
  ∃ e st', bindTo (SignalSource s) st = (inl e, st')
    ∧ st' = st ∧ read st' = read st
    ∧ subscriptions st'.2 = subscriptions st.2
    ∧ effects st'.2 = effects st.2.
Proof.
  intros Hm Hc st.
  apply bindable_inv in Hc as (_ & _ & _ & _ & Hi & _).
  cbn [mbind option_bind] in Hi. rewrite Hm in Hi. cbn [isTrue orb] in Hi.
  destruct (calls_closure (c, rt1) cs) as ((_ & _ & Hi') & _).
  fold st in Hi'. cbn [fst] in Hi'. rewrite Hi in Hi'.
  destruct st as [c' rt']. cbn [fst] in Hi'.
  rewrite bindTo_unfold, Hi'.
  destruct (activeConsumer rt'), (bound c'); eauto 10.
Qed.

(** C1 (as the code has it): a cell made with a [destroyRef] captures no
    injector, so [bindTo] on a signal always throws for it.  [bindTo] on a
    signal returns exactly when the cell was made without [destroyRef] and
    without [manualCleanup: true], is not bound yet, the call is made
    outside a reactive context, and the injector captured at construction
    is not destroyed (the effect resolves its [DestroyRef] through it). *)
Theorem signal_binding_needs_captured_injector (initialValue : T)
    (opts : option (Options T)) rt c rt1 cs (s : loc) :
  bindable initialValue opts rt = (inr c, rt1) →
  let st := calls (c, rt1) cs in
  (defined (opts ≫= destroyRef) = true →
     ∃ e, bindTo (SignalSource s) st = (inl e, st))
  ∧ ((∃ l st', bindTo (SignalSource s) st = (inr l, st'))
     ↔ defined (opts ≫= destroyRef) = false
       ∧ isTrue (opts ≫= manualCleanup) = false
       ∧ bound st.1 = false ∧ activeConsumer st.2 = false
       ∧ ∀ inj, captured opts rt = Some inj → injector_alive inj st.2 = true).
Proof.
  intros Hc st.
  apply bindable_inv in Hc as (_ & _ & _ & _ & Hi & Hsome).
  destruct (calls_closure (c, rt1) cs) as ((_ & _ & Hi') & _).
  fold st in Hi'. cbn [fst] in Hi'. rewrite <- Hi' in Hi, Hsome. clear Hi'.
  destruct st as [c' rt']. cbn [fst snd] in *. rewrite bindTo_unfold.
  unfold captured.
  destruct (defined (opts ≫= destroyRef)), (isTrue (opts ≫= manualCleanup));
    cbn [orb] in Hi.
  4: { destruct Hsome as [inj Hinj]; [done..|]. rewrite Hinj in Hi.
       rewrite Hinj, <- Hi.
       destruct (activeConsumer rt'), (bound c'); split; try done;
         try (split; [by intros (? & ? & [=])
                     |by intros (? & ? & ? & ? & ?)]).
       destruct (injector_alive inj rt') eqn:Ha; split.
       - intros _. repeat split; try done. by intros ? [= <-].
       - intros _. eauto.
       - by intros (? & ? & [=]).
       - intros (_ & _ & _ & _ & Halive).
         rewrite Halive in Ha; done. }
  all: rewrite Hi; destruct (activeConsumer rt'), (bound c'); split; eauto;
    split; try (by intros (? & ? & [=])); by intros (? & ? & ? & ? & ?).
Qed.

End LifeCycle.

(** ** Invariants of the runtime *)

Section Stable.
Context {T : Type} `{EqDecision T}.
Implicit Types (rt : Runtime T) (es : list (Event T)).

(** Properties of the installed subscriptions and effects that no
    runtime operation breaks. *)
Variables (P : Subscription → Prop) (Q : Effect → Prop).
Hypothesis P_stop : ∀ s, P s → P (stop s).
Hypothesis P_close : ∀ s, P s → P (close s).
Hypothesis Q_dirty : ∀ l e, Q e → Q (mark_dirty l e).
Hypothesis Q_clean : ∀ e, Q e → Q (clean e).
Hypothesis Q_destroy : ∀ d e, Q e → Q (on_destroy_eff d e).

Lemma holds_signal_set l v rt : holds P Q rt → holds P Q (signal_set l v rt).
Proof.
  intros [Hs He]. split; [by rewrite subscriptions_signal_set|].
  destruct (effects_signal_set l v rt) as [->| ->]; [done|].
  apply Forall_fmap. eapply Forall_impl; [done|]. intros e. apply Q_dirty.
Qed.

Lemma holds_notify n rt i : holds P Q rt → holds P Q (notify n rt i).
Proof.
  intros [Hs He]. unfold notify. repeat case_match; try done.
  split; [|done]. cbn [subscriptions with_subscriptions with_asap].
  apply Forall_alter; auto.
Qed.

Lemma holds_emit o n rt : holds P Q rt → holds P Q (emit o n rt).
Proof.
  intros Hrt. unfold emit. apply (foldl_invariant (holds P Q)); [done|].
  intros rt' i Hrt'. repeat case_match; auto using holds_notify.
Qed.

Lemma holds_destroy d rt : holds P Q rt → holds P Q (destroy d rt).
Proof.
  intros [Hs He]. split; cbn.
  - apply Forall_fmap. eapply Forall_impl; [done|]. intros s Hs'.
    unfold on_destroy_sub. simpl. case_decide; auto.
  - apply Forall_fmap. eapply Forall_impl; [done|]. intros e. apply Q_destroy.
Qed.

Lemma holds_run_action rt a : holds P Q rt → holds P Q (run_action rt a).
Proof.
  intros Hrt. unfold run_action. repeat case_match; auto using holds_signal_set.
  destruct Hrt as [Hs He]. split; [|done].
  cbn [subscriptions with_subscriptions]. apply Forall_alter; auto.
Qed.

Lemma holds_flush_asap rt : holds P Q rt → holds P Q (flush_asap rt).
Proof.
  intros Hrt. unfold flush_asap.
  apply (foldl_invariant (holds P Q)); auto using holds_run_action.
Qed.

Lemma holds_run_effect rt j : holds P Q rt → holds P Q (run_effect rt j).
Proof.
  intros Hrt. unfold run_effect. repeat case_match; try done.
  - apply holds_signal_set. destruct Hrt as [Hs He]. split; [done|].
    cbn [effects with_effects]. apply Forall_alter; auto.
  - destruct Hrt as [Hs He]. split; [done|].
    cbn [effects with_effects]. apply Forall_alter; auto.
Qed.

Lemma holds_flush_effects rt : holds P Q rt → holds P Q (flush_effects rt).
Proof.
  intros Hrt.
  apply (flush_effects_invariant (holds P Q)); auto using holds_run_effect.
Qed.

Lemma holds_step rt e : holds P Q rt → holds P Q (step rt e).
Proof.
  destruct e; cbn [step];
    auto using holds_emit, holds_signal_set, holds_destroy,
      holds_flush_effects, holds_flush_asap.
Qed.


End Stable.

(** ** Teardown of the owning scope *)

Section Teardown.
Context {T : Type} `{EqDecision T}.
Implicit Types (rt : Runtime T) (c : BindableSignal T) (st : State T)
  (source : Source T) (es : list (Event T)).


Lemma quiet_step rt e : quiet rt → quiet (step rt e).
Proof.
  apply holds_step; try done.
  - intros l e'. unfold mark_dirty. by case_decide.
  - intros d' e'. unfold on_destroy_eff. by case_decide.
Qed.



Lemma quiet_run_action rt a : quiet rt → run_action rt a = rt.
Proof.
  intros [Hs _]. unfold run_action.
  destruct (subscriptions rt !! a.1) as [s|] eqn:Hl; [|done].
  by rewrite (Forall_lookup_1 _ _ _ _ Hs Hl).
Qed.

Lemma quiet_run_effect rt j : quiet rt → run_effect rt j = rt.
Proof.
  intros [_ He]. unfold run_effect.
  destruct (effects rt !! j) as [e|] eqn:Hl; [|done].
  by rewrite (Forall_lookup_1 _ _ _ _ He Hl).
Qed.

Lemma quiet_tick rt :
  quiet rt → signals (step rt Tick) = signals rt.
Proof.
  intros Hq. cbn [step].
  assert (flush_asap rt = with_asap (λ _, []) rt) as ->.
  { unfold flush_asap.
    apply (foldl_invariant (λ rt', rt' = with_asap (λ _, []) rt)); [done|].
    intros ? a ->. by apply quiet_run_action. }
  assert (flush_effects (with_asap (λ _, []) rt) = with_asap (λ _, []) rt)
    as ->; [|done].
  apply (flush_effects_invariant (λ rt', rt' = with_asap (λ _, []) rt));
    [done|].
  intros ? j ->. by apply quiet_run_effect.
Qed.

(** Once everything is closed, only a direct [set] on [l] changes it. *)
Lemma quiet_run l rt es :
  quiet rt → Forall (λ e, ∀ v, e ≠ SetSignal l v) es →
  signals (run rt es) !! l = signals rt !! l.
Proof.
  intros Hq Hes. revert rt Hq.
  induction Hes as [|e es He _ IH]; intros rt Hq; [done|].
  cbn [run foldl]. fold (run (step rt e) es).
  rewrite IH by by apply quiet_step.
  destruct e as [o n|l' v|d| |ctx a].
  - cbn [step]. by rewrite signals_emit.
  - cbn [step]. apply signal_set_lookup_ne. intros ->. by eapply He.
  - done.
  - by rewrite quiet_tick.
  - done.
Qed.



End Teardown.

(** ** Propagation from an observable *)

Section StreamPropagation.
Context {T : Type} `{EqDecision T}.
Implicit Types (rt : Runtime T) (es : list (Event T))
  (ns nd np : list (Notification T)).

Lemma completed_app ns ns' :
  completed (ns ++ ns') = completed ns || completed ns'.
Proof. induction ns as [|[v|] ns IH]; simpl; auto. Qed.

Lemma values_app ns ns' :
  values (ns ++ ns') = if completed ns then values ns else values ns ++ values ns'.
Proof.
  induction ns as [|[v|] ns IH]; simpl; auto.
  rewrite IH. by destruct (completed ns).
Qed.

Lemma upto_snoc ns n :
  upto (ns ++ [n]) = if completed ns then upto ns else upto ns ++ [n].
Proof.
  induction ns as [|[v|] ns IH]; simpl; auto.
  - by destruct n.
  - rewrite IH. by destruct (completed ns).
Qed.

Lemma emitted_app o es es' : emitted o (es ++ es') = emitted o es ++ emitted o es'.
Proof. unfold emitted. apply bind_app. Qed.

Lemma settle_app eq (cur : option T) vs vs' :
  settle eq cur (vs ++ vs') = settle eq (settle eq cur vs) vs'.
Proof. unfold settle. apply foldl_app. Qed.

(** With the default equality a signal holds the last value [set]. *)
Lemma settle_default (cur : option T) vs :
  settle Object_is cur vs = from_option Some cur (last vs).
Proof.
  induction vs as [|v vs IH] using rev_ind; [done|].
  rewrite settle_app, last_snoc. unfold settle at 1. cbn [foldl from_option].
  destruct (settle Object_is cur vs) as [old|]; [|done].
  unfold Object_is. case_bool_decide; by subst.
Qed.

Lemma set_calls_signal_set l l' v rt :
  set_calls l (signal_set l' v rt)
  = set_calls l rt ++ (if decide (l' = l) then [v] else []).
Proof.
  unfold set_calls. rewrite setLog_signal_set, omap_app. cbn.
  by case_decide.
Qed.


Lemma run_action_next rt i s v :
  subscriptions rt !! i = Some s → sub_closed s = false →
  run_action rt (i, Next v) = signal_set (sub_target s) v rt.
Proof. intros Hi Hc. unfold run_action. cbn [fst snd]. by rewrite Hi, Hc. Qed.

Lemma run_action_complete rt i s :
  subscriptions rt !! i = Some s → sub_closed s = false →
  run_action rt (i, Complete) = with_subscriptions (alter close i) rt.
Proof. intros Hi Hc. unfold run_action. cbn [fst snd]. by rewrite Hi, Hc. Qed.

Section StreamInvariant.
Variables (o : nat) (op : option DestroyRef) (l : loc).
Variables (eq : T → T → bool) (calls0 : list T) (v0 : option T).

Lemma stream_inv_notify nd np n rt :
  stream_inv o op l eq calls0 v0 nd np rt →
  stream_inv o op l eq calls0 v0 nd (np ++ [n]) (notify n rt 0).
Proof.
  intros (Hs & He & Ha & Hq & Hc & Hv). unfold notify, stream_inv.
  rewrite Hs. simpl. rewrite !completed_app in *. rewrite upto_snoc.
  destruct (completed nd) eqn:Hnd; simpl.
  { by rewrite Hs. }
  destruct (completed np) eqn:Hnp; simpl.
  { by rewrite Hs. }
  destruct n as [v|]; simpl; rewrite Hs, Ha, fmap_app; simpl; done.
Qed.

Lemma stream_inv_notify_all nd np ns rt :
  stream_inv o op l eq calls0 v0 nd np rt →
  stream_inv o op l eq calls0 v0 nd (np ++ ns)
    (foldl (λ rt n, notify n rt 0) rt ns).
Proof.
  revert np rt. induction ns as [|n ns IH]; intros np rt Hrt; simpl.
  - by rewrite app_nil_r.
  - rewrite cons_middle, app_assoc. by apply IH, stream_inv_notify.
Qed.

Lemma stream_inv_emit nd np o' n rt :
  stream_inv o op l eq calls0 v0 nd np rt →
  stream_inv o op l eq calls0 v0 nd (np ++ emitted o [Emit o' n])
    (emit o' n rt).
Proof.
  intros Hrt. pose proof Hrt as (Hs & _). unfold emit. rewrite Hs. simpl.
  rewrite Hs. simpl. unfold emitted. simpl.
  destruct (decide (o = o')) as [<-|Hne].
  - rewrite decide_True by done. simpl. by apply stream_inv_notify.
  - rewrite decide_False by done. simpl. by rewrite app_nil_r.
Qed.

Lemma stream_flush_asap nd np rt :
  completed nd = false →
  subscriptions rt =
    [{| sub_source := o; sub_until := op; sub_target := l;
        sub_closed := false; sub_stopped := completed (nd ++ np) |}] →
  effects rt = [] → asap rt = [] → equal_of rt l = eq →
  set_calls l rt = calls0 ++ values nd →
  signals rt !! l = settle eq v0 (values nd) →
  stream_inv o op l eq calls0 v0 (nd ++ np) []
    (foldl run_action rt ((λ n, (0, n)) <$> upto np)).
Proof.
  revert nd rt.
  induction np as [|[v|] np IH]; intros nd rt Hnd Hs He Ha Hq Hc Hv.
  - simpl. rewrite !app_nil_r in *. unfold stream_inv.
    rewrite app_nil_r, Hnd. rewrite Hnd in Hs. done.
  - cbn [upto fmap list_fmap foldl].
    rewrite cons_middle, app_assoc. rewrite cons_middle, app_assoc in Hs.
    assert (values (nd ++ [Next v]) = values nd ++ [v]) as Hvs
      by (by rewrite values_app, Hnd).
    erewrite run_action_next; [|by rewrite Hs|done]. cbn [sub_target].
    apply IH.
    + by rewrite completed_app, Hnd.
    + by rewrite subscriptions_signal_set.
    + destruct (effects_signal_set l v rt) as [->| ->]; by rewrite He.
    + by rewrite asap_signal_set.
    + unfold equal_of. by rewrite equals_signal_set.
    + rewrite set_calls_signal_set, decide_True, Hc, Hvs by done.
      by rewrite app_assoc.
    + by rewrite signal_set_lookup, Hq, Hv, Hvs, settle_app.
  - cbn [upto fmap list_fmap foldl].
    erewrite run_action_complete; [|by rewrite Hs|done].
    unfold stream_inv. rewrite app_nil_r, completed_app, values_app, Hnd.
    cbn [subscriptions with_subscriptions effects asap completed orb values].
    rewrite Hs, app_nil_r. cbn [alter list_alter close sub_source sub_until
      sub_target sub_stopped]. rewrite completed_app, Hnd. done.
Qed.

Lemma stream_inv_tick nd np rt :
  stream_inv o op l eq calls0 v0 nd np rt →
  stream_inv o op l eq calls0 v0 (nd ++ np) [] (step rt Tick).
Proof.
  intros (Hs & He & Ha & Hq & Hc & Hv). cbn [step].
  assert (stream_inv o op l eq calls0 v0 (nd ++ np) [] (flush_asap rt)) as Hf.
  { unfold flush_asap. rewrite Ha. destruct (completed nd) eqn:Hnd.
    - simpl. unfold stream_inv.
      rewrite app_nil_r, completed_app, values_app, Hnd. simpl.
      rewrite Hs, completed_app, Hnd. done.
    - apply stream_flush_asap; try done. }
  rewrite flush_effects_idle; [done|].
  destruct Hf as (_ & -> & _). done.
Qed.

Lemma stream_inv_step nd np e rt :
  stream_event op l e → stream_inv o op l eq calls0 v0 nd np rt →
  ∃ nd' np', nd' ++ np' = nd ++ np ++ emitted o [e]
             ∧ stream_inv o op l eq calls0 v0 nd' np' (step rt e).
Proof.
  intros He Hrt. destruct e as [o' n|l' v|d| |ctx a]; cbn [stream_event] in He.
  - exists nd, (np ++ emitted o [Emit o' n]). split; [done|].
    by apply stream_inv_emit.
  - exists nd, np. split; [by rewrite app_nil_r|].
    destruct Hrt as (Hs & He' & Ha & Hq & Hc & Hv). cbn [step].
    repeat split.
    + by rewrite subscriptions_signal_set.
    + destruct (effects_signal_set l' v rt) as [->| ->]; by rewrite He'.
    + by rewrite asap_signal_set.
    + unfold equal_of. by rewrite equals_signal_set.
    + by rewrite set_calls_signal_set, decide_False, app_nil_r.
    + by rewrite signal_set_lookup_ne.
  - exists nd, np. split; [by rewrite app_nil_r|].
    destruct Hrt as (Hs & He' & Hrest). repeat split; try apply Hrest.
    + cbn. rewrite Hs. simpl. unfold on_destroy_sub. simpl.
      by rewrite decide_False.
    + cbn. by rewrite He'.
  - exists (nd ++ np), []. split; [by rewrite !app_nil_r|].
    by apply stream_inv_tick.
  - exists nd, np. split; [by rewrite app_nil_r|]. done.
Qed.

Lemma stream_inv_run nd np es rt :
  Forall (stream_event op l) es → stream_inv o op l eq calls0 v0 nd np rt →
  ∃ nd' np', nd' ++ np' = nd ++ np ++ emitted o es
             ∧ stream_inv o op l eq calls0 v0 nd' np' (run rt es).
Proof.
  intros Hes. revert nd np rt.
  induction Hes as [|e es He _ IH]; intros nd np rt Hrt.
  - exists nd, np. by rewrite app_nil_r.
  - destruct (stream_inv_step _ _ _ _ He Hrt) as (nd1 & np1 & Heq1 & H1).
    destruct (IH _ _ _ H1) as (nd2 & np2 & Heq2 & H2).
    exists nd2, np2. split; [|done].
    change (e :: es) with ([e] ++ es).
    rewrite Heq2, app_assoc, Heq1, emitted_app, <- !app_assoc. done.
Qed.

End StreamInvariant.

End StreamPropagation.

(** ** Propagation from a signal *)

Section SignalPropagation.
Context {T : Type} `{EqDecision T}.
Implicit Types (rt : Runtime T) (es : list (Event T)).

Section EffectInvariant.
Variables (s l : loc) (scope : option DestroyRef).
Hypothesis source_is_foreign : s ≠ l.





End EffectInvariant.

End SignalPropagation.

(** ** Propagation after a binding *)

Section Propagation.
Context {T : Type} `{EqDecision T}.
Implicit Types (rt : Runtime T) (c : BindableSignal T) (st : State T)
  (source : Source T) (es : list (Event T)).


Lemma bindTo_stream_inv c rt (o : Observable T) l st' :
  no_bindings rt →
  bindTo (ObservableSource o) (c, rt) = (inr l, st') →
  scope_destroyed (operatorFunction c) rt = false →
  stream_inv (obs_id o) (operatorFunction c) l (equal_of rt l)
    (set_calls l rt) (signals rt !! l) [] (obs_onSubscribe o) st'.2.
Proof.
  intros (Hs & He & Ha) Hb Hscope.
  pose proof (bindTo_returns _ _ _ _ Hb) as (_ & _ & Hl & _).
  cbn [fst] in Hl. subst l. apply bindTo_installs in Hb as (_ & ->).
  unfold subscribe, modify. cbn [snd]. rewrite Hs. cbn [length].
  apply (stream_inv_notify_all _ _ _ _ _ _ [] []).
  unfold stream_inv. cbn. rewrite Hs, He, Ha, Hscope, app_nil_r. done.
Qed.



End Propagation.

(** ** Further properties of the factory *)

Section Factory.
Context {T : Type} `{EqDecision T}.
Implicit Types (rt : Runtime T) (c : BindableSignal T) (st : State T)
  (opts : option (Options T)) (cs : list (Call T)).

Lemma bindable_creates_one_signal_aux (initialValue : T) opts rt c rt1 :
  bindable initialValue opts rt = (inr c, rt1) →
  signals rt1 !! bindableSignal c = Some initialValue.
Proof.
  intros (_ & _ & _ & -> & _)%bindable_inv. apply lookup_insert_eq.
Qed.

(** X1: a construction that throws has created nothing: the runtime is the
    one from before the call.  A construction that returns has created
    one new signal object holding the initial value; every signal that
    existed keeps its value, and nothing is installed, queued, torn down
    or logged by it. *)
Theorem bindable_creates_one_signal (initialValue : T) opts rt r rt1 :
  bindable initialValue opts rt = (r, rt1) →
  match r with
  | inl _ => rt1 = rt
  | inr c =>
      signals rt !! bindableSignal c = None
      ∧ signals rt1 !! bindableSignal c = Some initialValue
      ∧ (∀ l, l ≠ bindableSignal c → signals rt1 !! l = signals rt !! l)
      ∧ subscriptions rt1 = subscriptions rt ∧ effects rt1 = effects rt
      ∧ asap rt1 = asap rt ∧ setLog rt1 = setLog rt
      ∧ destroyed rt1 = destroyed rt
  end.
Proof.
  destruct r as [e|c].
  - rewrite bindable_unfold. unfold new_cell.
    repeat case_match; by intros [= <-].
  - intros (Hl & _ & _ & -> & _)%bindable_inv. rewrite Hl.
    cbn [signals with_signals subscriptions effects asap setLog destroyed].
    repeat split.
    + apply not_elem_of_dom, is_fresh.
    + apply lookup_insert_eq.
    + intros l Hne. by apply lookup_insert_ne.
Qed.

Lemma scope_resolution_order_aux (initialValue : T) opts rt c rt1 cs :
  bindable initialValue opts rt = (inr c, rt1) →
  operatorFunction (calls (c, rt1) cs).1 = resolved_scope opts rt.
Proof.
  intros Hc.
  apply bindable_inv in Hc as (_ & Ho & _ & _ & Hi & _).
  destruct (calls_closure (c, rt1) cs) as ((_ & Ho' & Hi') & _).
  cbn [fst] in Ho', Hi'.
  unfold operatorFunction, resolved_destroyRef, resolved_scope.
  rewrite Ho', Hi', Ho, Hi.
  destruct (isTrue (opts ≫= manualCleanup)); [done|].
  destruct (opts ≫= destroyRef) as [d|]; [done|]. cbn [defined orb nullish].
  by destruct (opts ≫= injector).
Qed.

Lemma captured_injector (initialValue : T) opts rt c rt1 cs :
  bindable initialValue opts rt = (inr c, rt1) →
  injectorVar (calls (c, rt1) cs).1
  = (if isTrue (opts ≫= manualCleanup) || defined (opts ≫= destroyRef)
     then None else captured opts rt)
  ∧ options (calls (c, rt1) cs).1 = opts
  ∧ (isTrue (opts ≫= manualCleanup) = false →
     defined (opts ≫= destroyRef) = false → is_Some (captured opts rt)).
Proof.
  intros Hc.
  apply bindable_inv in Hc as (_ & Ho & _ & _ & Hi & Hsome).
  destruct (calls_closure (c, rt1) cs) as ((_ & Ho' & Hi') & _).
  cbn [fst] in Ho', Hi'. rewrite Ho', Hi', Ho, Hi. repeat split.
  intros Hm Hd. specialize (Hsome Hm Hd). rewrite Hi, Hm, Hd in Hsome. done.
Qed.

Lemma fmap_alter_same {A B} (f : A → B) (g : A → A) (i : nat) (l : list A) :
  (∀ x, f (g x) = f x) → f <$> alter g i l = f <$> l.
Proof.
  intros Hfg. revert i. induction l as [|x l IH]; intros [|i]; cbn; [done..| |].
  - by rewrite Hfg.
  - by rewrite IH.
Qed.

(** What a subscription is made with. *)
Lemma notify_static n rt i :
  (λ s, (sub_source s, sub_until s, sub_target s)) <$> subscriptions (notify n rt i)
  = (λ s, (sub_source s, sub_until s, sub_target s)) <$> subscriptions rt.
Proof.
  unfold notify. repeat case_match; try done.
  cbn [subscriptions with_subscriptions with_asap]. by apply fmap_alter_same.
Qed.

Lemma subscribe_last (o : Observable T) op l rt :
  ∃ sub, last (subscriptions (subscribe o op l rt).2) = Some sub
         ∧ sub_source sub = obs_id o ∧ sub_until sub = op
         ∧ sub_target sub = l.
Proof.
  unfold subscribe, modify. cbn [snd].
  set (static := λ s : Subscription, (sub_source s, sub_until s, sub_target s)).
  match goal with |- context [foldl ?f ?a ?ns] =>
    assert (static <$> subscriptions (foldl f a ns)
            = static <$> subscriptions a) as Hstatic
  end.
  { apply (foldl_preserves _ (λ rt', static <$> subscriptions rt')).
    intros rt' n. apply notify_static. }
  apply (f_equal last) in Hstatic. rewrite !fmap_last in Hstatic.
  cbn [subscriptions with_subscriptions] in Hstatic.
  rewrite last_snoc in Hstatic.
  match type of Hstatic with static <$> ?x = _ => destruct x as [sub|] end;
    [|done].
  exists sub. injection Hstatic as -> -> ->. done.
Qed.

(** X2: what a [bindTo] that returns installs is scoped by the resolution
    order.  For a cell made by [bindable], the subscription it adds for
    an observable is on that observable, writes into the cell, and ends
    with [takeUntilDestroyed] of the [destroyRef] option, else of the
    [DestroyRef] of the [injector] option, else of that of the ambient
    injector, and with no operator under [manualCleanup: true]; the
    effect it adds for a signal reads that signal, writes into the cell
    and has the scope resolved in the same order. *)
Theorem scope_resolution_order (initialValue : T) opts rt c rt1 cs
    (source : Source T) l st' :
  bindable initialValue opts rt = (inr c, rt1) →
  bindTo source (calls (c, rt1) cs) = (inr l, st') →
  match source with
  | ObservableSource o =>
      ∃ sub, last (subscriptions st'.2) = Some sub
             ∧ sub_source sub = obs_id o
             ∧ sub_target sub = bindableSignal c
             ∧ sub_until sub = resolved_scope opts rt
  | SignalSource s =>
      ∃ e, last (effects st'.2) = Some e
           ∧ eff_source e = s
           ∧ eff_target e = bindableSignal c
           ∧ eff_scope e = resolved_scope opts rt
  end.
Proof.
  intros Hc Hb.
  pose proof (scope_resolution_order_aux _ _ _ _ _ cs Hc) as Hop.
  pose proof (captured_injector _ _ _ _ _ cs Hc) as (Hi & Ho & _).
  destruct (calls_closure (c, rt1) cs) as ((Hl & _) & _). cbn [fst] in Hl.
  destruct (calls (c, rt1) cs) as [c' rt']. cbn [fst] in *.
  apply bindTo_installs in Hb. destruct source as [s|o].
  - destruct Hb as (inj & Hinj & Halive & ->).
    rewrite effect_alive by done. cbn [snd effects with_effects].
    rewrite last_snoc. eexists. split; [done|]. cbn. repeat split; [done|].
    rewrite Hinj in Hi. unfold resolved_scope, captured in *.
    destruct (isTrue (opts ≫= manualCleanup)); [done|].
    destruct (opts ≫= destroyRef); [done|]. cbn [defined orb] in Hi.
    destruct (opts ≫= injector); cbn [nullish] in Hi; [by simplify_eq|].
    by rewrite <- Hi.
  - destruct Hb as (_ & ->).
    destruct (subscribe_last o (operatorFunction c') (bindableSignal c') rt')
      as (sub & Hlast & Hsrc & Huntil & Htarget).
    exists sub. repeat split; congruence.
Qed.

(** X3: binding to an observable, at any point of a cell's life, returns
    exactly when the cell is not bound yet, the call is made outside a
    reactive context, and either [manualCleanup] is [true], or a
    [destroyRef] was given, or the captured injector is not destroyed and
    resolves a [DestroyRef].  It throws the missing-[DestroyRef] error
    only for a captured injector that resolves none, and the error of
    [injector.get] only for a captured injector that is destroyed. *)
Theorem observable_binding_outcome (initialValue : T) opts rt c rt1 cs
    (o : Observable T) :
  bindable initialValue opts rt = (inr c, rt1) →
  let st := calls (c, rt1) cs in
  ((∃ l st', bindTo (ObservableSource o) st = (inr l, st'))
   ↔ bound st.1 = false ∧ activeConsumer st.2 = false
     ∧ (isTrue (opts ≫= manualCleanup) = true
        ∨ is_Some (opts ≫= destroyRef)
        ∨ ∃ inj, captured opts rt = Some inj
                 ∧ injector_alive inj st.2 = true
                 ∧ is_Some (get_DestroyRef inj)))
  ∧ (bindTo (ObservableSource o) st = (inl NoDestroyRef, st)
     → ∃ inj, captured opts rt = Some inj ∧ get_DestroyRef inj = None)
  ∧ (bindTo (ObservableSource o) st = (inl InjectorDestroyed, st)
     → ∃ inj, captured opts rt = Some inj ∧ injector_alive inj st.2 = false).
Proof.
  intros Hc st.
  pose proof (captured_injector _ _ _ _ _ cs Hc) as (Hi & Ho & Hsome).
  fold st in Hi, Ho. destruct st as [c' rt']. cbn [fst snd] in *.
  rewrite bindTo_unfold. unfold resolved_destroyRef. rewrite Ho, Hi.
  destruct (activeConsumer rt'), (bound c');
    try (split; [split; [by intros (? & ? & [=])|by intros (? & ? & _)]
                |split; by intros [=]]).
  destruct (isTrue (opts ≫= manualCleanup)) eqn:Hm.
  { split; [|split; by intros [=]]. split; eauto. }
  destruct (opts ≫= destroyRef) as [d|] eqn:Hd; cbn [defined orb nullish].
  { split; [|split; by intros [=]]. split; eauto 10. }
  destruct (Hsome eq_refl eq_refl) as [inj Hinj]. rewrite Hinj.
  cbn [from_option mbind option_bind].
  destruct (injector_alive inj rt') eqn:Ha.
  - destruct (get_DestroyRef inj) as [d|] eqn:Hg.
    + split; [|split; by intros [=]]. split; [|by eauto].
      intros _. repeat split; try done. right. right. exists inj.
      rewrite Hg. eauto.
    + split; [|split; [by eauto|by intros [=]]].
      split; [by intros (? & ? & [=])|].
      intros (_ & _ & [?|[[? ?]|(inj' & [= <-] & _ & [? Hg'])]]); try done.
      by rewrite Hg in Hg'.
  - split; [|split; [by intros [=]|by eauto]].
    split; [by intros (? & ? & [=])|].
    intros (_ & _ & [?|[[? ?]|(inj' & [= <-] & Ha' & _)]]); try done.
    by rewrite Ha in Ha'.
Qed.

End Factory.

(** ** Further properties of the life cycle *)

Section Installed.
Context {T : Type} `{EqDecision T}.
Implicit Types (rt : Runtime T) (c : BindableSignal T) (st : State T)
  (source : Source T) (es : list (Event T)) (cs : list (Call T))
  (opts : option (Options T)).










Lemma no_bindings_step rt e : no_bindings rt → no_bindings (step rt e).
Proof.
  intros (Hs & He & Ha). destruct e as [o n|l v|d| |ctx a]; cbn [step].
  - unfold emit. by rewrite Hs.
  - repeat split.
    + by rewrite subscriptions_signal_set.
    + destruct (effects_signal_set l v rt) as [->| ->]; by rewrite He.
    + by rewrite asap_signal_set.
  - repeat split; cbn; [by rewrite Hs|by rewrite He|done].
  - unfold flush_asap. rewrite Ha. cbn [foldl].
    rewrite flush_effects_idle; [done|]. cbn. by rewrite He.
  - done.
Qed.

Lemma no_bindings_step_lookup l rt e :
  no_bindings rt →
  signals (step rt e) !! l
  = settle (equal_of rt l) (signals rt !! l) (direct_sets l [e]).
Proof.
  intros (Hs & He & Ha). destruct e as [o n|l' v|d| |ctx a]; cbn [step].
  - by rewrite signals_emit.
  - unfold direct_sets. cbn. case_decide as Hl.
    + subst l'. apply signal_set_lookup.
    + by apply signal_set_lookup_ne.
  - done.
  - unfold flush_asap. rewrite Ha. cbn [foldl].
    rewrite flush_effects_idle; [done|]. cbn. by rewrite He.
  - done.
Qed.

Lemma direct_sets_cons l (e : Event T) es :
  direct_sets l (e :: es) = direct_sets l [e] ++ direct_sets l es.
Proof. unfold direct_sets. rewrite !bind_cons. cbn. by rewrite app_nil_r. Qed.

(** X5: until a [bindTo] returns, a cell is an ordinary writable signal:
    for a cell created in a runtime where nothing is installed, as long as
    [bound] is [false] (whatever events happened and however many [bindTo]
    calls threw) nothing is installed and the cell holds what the direct
    [set] calls on it leave under the equality function it was created
    with; with the default equality that is the value last [set], the
    initial value if there was none. *)
Theorem unbound_cell_is_plain_signal (initialValue : T) opts rt c rt1 cs :
  no_bindings rt →
  bindable initialValue opts rt = (inr c, rt1) →
  bound (calls (c, rt1) cs).1 = false →
  let sets := direct_sets (bindableSignal c) (env_events cs) in
  read (calls (c, rt1) cs)
  = settle (default Object_is (opts ≫= equal)) (Some initialValue) sets
  ∧ (opts ≫= equal = None →
     read (calls (c, rt1) cs) = Some (default initialValue (last sets)))
  ∧ no_bindings (calls (c, rt1) cs).2.
Proof.
  intros Hnb Hc Hbound sets.
  pose proof (bindable_creates_one_signal_aux _ _ _ _ _ Hc) as Hv.
  pose proof (cell_persists _ _ _ _ _ [] Hc) as (_ & _ & Heq).
  cbn [calls foldl snd] in Heq.
  apply bindable_inv in Hc as (_ & _ & _ & Hrt1 & _).
  assert (no_bindings rt1) as Hnb1 by (by rewrite Hrt1).
  clear Hrt1 Hnb.
  set (eq := default Object_is (opts ≫= equal)) in *.
  assert (∀ (st0 : State T) (cur : option T),
    bound (calls st0 cs).1 = false → no_bindings st0.2 →
    equal_of st0.2 (bindableSignal st0.1) = eq →
    signals st0.2 !! bindableSignal st0.1 = cur →
    read (calls st0 cs)
    = settle eq cur (direct_sets (bindableSignal st0.1) (env_events cs))
    ∧ no_bindings (calls st0 cs).2) as Hind.
  { clear. induction cs as [|a cs IH]; intros st0 cur Hb Hnb Hq Hv; [done|].
    cbn [calls foldl] in *. fold (calls (call st0 a) cs) in *.
    destruct (call_closure st0 a) as ((Hl & _ & _) & _).
    destruct a as [e|source]; cbn [call] in *.
    - unfold env_events. rewrite bind_cons. fold (env_events cs).
      cbn [app]. rewrite direct_sets_cons, settle_app.
      cbn [fst] in Hl.
      specialize (IH (st0.1, step st0.2 e)). cbn [fst snd] in IH.
      apply IH; [done|by apply no_bindings_step| |].
      + by rewrite equal_of_step.
      + rewrite no_bindings_step_lookup by done. by rewrite Hq, Hv.
    - unfold env_events. rewrite bind_cons. fold (env_events cs).
      cbn [app].
      destruct (bindTo source st0) as [[e|l] st'] eqn:Hbind; cbn [snd] in *.
      + apply bindTo_throws in Hbind as ->. by apply IH.
      + apply bindTo_returns in Hbind as (_ & _ & _ & Hc').
        destruct (calls_closure st' cs) as [_ Hmono].
        rewrite Hmono in Hb; [done|]. by rewrite Hc'. }
  destruct (Hind (c, rt1) (Some initialValue) Hbound Hnb1 Heq Hv)
    as [Hread Hnb].
  cbn [fst] in Hread. fold sets in Hread.
  split; [done|]. split; [|done].
  intros Hnone. rewrite Hread. unfold eq. rewrite Hnone. cbn [default].
  rewrite settle_default. by destruct (last sets).
Qed.

End Installed.

(** ** Further properties of a stream binding *)

Section StreamBinding.
Context {T : Type} `{EqDecision T}.
Implicit Types (rt : Runtime T) (c : BindableSignal T) (st : State T)
  (es : list (Event T)) (o : Observable T).

Lemma stream_inv_completed_quiet (i : nat) op l eq calls0 v0 nd rt :
  stream_inv i op l eq calls0 v0 nd [] rt → completed nd = true → quiet rt.
Proof.
  intros (Hs & He & _) Hnd. split; [rewrite Hs|rewrite He].
  - apply Forall_singleton. done.
  - constructor.
Qed.

(** X6: take a cell bound to an observable in a runtime where nothing
    else is installed, with the scope of the binding alive, and let
    events happen (no teardown of that scope, no direct [set] on the cell)
    among which the observable completes.  Once a scheduling turn has
    delivered the completion, the cell holds what the values delivered
    before the completion leave under its equality function (the last of
    them with the default equality) and keeps it: no later emission, turn
    or teardown changes it, only a direct [set] on the cell would.  This
    holds for every cleanup strategy, manual included. *)
Theorem completion_stops_propagation c rt o l st' es1 es2 :
  no_bindings rt →
  bindTo (ObservableSource o) (c, rt) = (inr l, st') →
  scope_destroyed (operatorFunction c) rt = false →
  Forall (stream_event (operatorFunction c) l) es1 →
  completed (obs_onSubscribe o ++ emitted (obs_id o) es1) = true →
  Forall (λ e, ∀ v, e ≠ SetSignal l v) es2 →
  let vs := values (obs_onSubscribe o ++ emitted (obs_id o) es1) in
  signals (run st'.2 (es1 ++ [Tick])) !! l
  = settle (equal_of rt l) (signals rt !! l) vs
  ∧ (equal_of rt l = Object_is →
     signals (run st'.2 (es1 ++ [Tick])) !! l
     = from_option Some (signals rt !! l) (last vs))
  ∧ read (st'.1, run (run st'.2 (es1 ++ [Tick])) es2)
    = read (st'.1, run st'.2 (es1 ++ [Tick])).
Proof.
  intros Hnb Hb Hscope Hes1 Hdone Hes2 vs.
  pose proof (bindTo_returns _ _ _ _ Hb) as (_ & _ & Hl & Hc).
  cbn [fst] in Hl, Hc.
  pose proof (bindTo_stream_inv _ _ _ _ _ Hnb Hb Hscope) as Hinv.
  destruct (stream_inv_run _ _ _ _ _ _ _ _ _ _ Hes1 Hinv)
    as (nd & np & Heq & Hrun).
  apply stream_inv_tick in Hrun. rewrite <- run_snoc in Hrun.
  cbn [app] in Heq. rewrite Heq in Hrun.
  assert (signals (run st'.2 (es1 ++ [Tick])) !! l
          = settle (equal_of rt l) (signals rt !! l) vs) as Hv
    by (by destruct Hrun as (_ & _ & _ & _ & _ & Hv)).
  split; [done|]. split.
  - intros Hdefault. rewrite Hv, Hdefault. apply settle_default.
  - unfold read. cbn [fst snd]. rewrite Hc. cbn [bindableSignal mark_bound].
    rewrite <- Hl. apply quiet_run; [|done].
    by eapply stream_inv_completed_quiet.
Qed.

(** X7: with [manualCleanup: true] no teardown ever ends a binding to an
    observable.  Take such a cell bound in a runtime where nothing else is
    installed, and let events happen without a direct [set] on the cell:
    whatever scopes are torn down in between, after every scheduling turn
    the [set] calls made on the cell since the binding are exactly the
    values the observable has delivered, in order, and the cell holds
    what these calls leave under its equality function, the last of them
    with the default equality. *)
Theorem manual_binding_outlives_every_scope c rt o l st' es :
  no_bindings rt →
  isTrue (options c ≫= manualCleanup) = true →
  bindTo (ObservableSource o) (c, rt) = (inr l, st') →
  Forall (stream_event None l) es →
  mirrors (ObservableSource o) l es rt (run st'.2 (es ++ [Tick]))
  ∧ (equal_of rt l = Object_is →
     mirrors_default (ObservableSource o) l es rt (run st'.2 (es ++ [Tick]))).
Proof.
  intros Hnb Hm Hb Hes.
  assert (operatorFunction c = None) as Hop
    by (unfold operatorFunction; by rewrite Hm).
  assert (scope_destroyed (operatorFunction c) rt = false) as Hscope
    by (by rewrite Hop).
  pose proof (bindTo_stream_inv _ _ _ _ _ Hnb Hb Hscope) as Hinv.
  rewrite <- Hop in Hes.
  destruct (stream_inv_run _ _ _ _ _ _ _ _ _ _ Hes Hinv)
    as (nd & np & Heq & Hrun).
  apply stream_inv_tick in Hrun as (_ & _ & _ & _ & Hlog & Hval).
  rewrite <- run_snoc in Hlog, Hval. rewrite Heq in Hlog, Hval.
  cbn [mirrors mirrors_default]. split; [done|].
  intros Hdefault. rewrite Hval, Hdefault. apply settle_default.
Qed.

End StreamBinding.

(** ** The scenarios of the test suite *)

Example updates_from_observable :
  scenario None rt_inside (ObservableSource behavior_subject) [] = inr (Some 3)
  ∧ scenario None rt_inside (ObservableSource behavior_subject) [Tick]
    = inr (Some 10)
  ∧ scenario None rt_inside (ObservableSource behavior_subject)
      [Tick; Emit 4 (Next 12); Tick] = inr (Some 12).
Proof. repeat split; reflexivity. Qed.

Example updates_from_signal :
  scenario None rt_inside (SignalSource 0) [] = inr (Some 3)
  ∧ scenario None rt_inside (SignalSource 0) [Tick] = inr (Some 5)
  ∧ scenario None rt_inside (SignalSource 0) [Tick; SetSignal 0 8; Tick]
    = inr (Some 8).
Proof. repeat split; reflexivity. Qed.

Example requires_injection_context :
  scenario None rt_outside (SignalSource 0) [] = inl NoInjectionContext.
Proof. reflexivity. Qed.

Example throws_for_signal :
  scenario (Some with_manualCleanup) rt_inside (SignalSource 0) []
  = inl SignalWithoutInjector
  ∧ scenario (Some with_destroyRef) rt_inside (SignalSource 0) []
    = inl SignalWithoutInjector
  ∧ scenario (Some with_injector) rt_outside (SignalSource 0) [Tick]
    = inr (Some 5).
Proof. repeat split; reflexivity. Qed.

Example stops_on_destroy :
  scenario (Some with_destroyRef) rt_outside (ObservableSource behavior_subject)
    [Tick; Destroy 7; Emit 4 (Next 12); Tick] = inr (Some 10)
  ∧ scenario (Some with_injector) rt_outside (ObservableSource behavior_subject)
      [Tick; Destroy 7; Emit 4 (Next 12); Tick] = inr (Some 10)
  ∧ scenario None rt_inside (SignalSource 0)
      [Tick; Destroy 1; SetSignal 0 8; Tick] = inr (Some 5).
Proof. repeat split; reflexivity. Qed.

Example stops_on_completion :
  scenario (Some with_manualCleanup) rt_outside
    (ObservableSource {| obs_id := 4; obs_onSubscribe := [Next 10; Complete] |})
    [Tick; Emit 4 (Next 12); Tick] = inr (Some 10).
Proof. reflexivity. Qed.

(** ** The statements at sample inputs *)

Lemma construction_manual_cleanup_witness :
  bindable 3 (Some manual_with_destroyRef) rt_outside
  = (inl ManualCleanupWithDestroyRefOrInjector, rt_outside)
  ∧ ∃ c rt1, bindable 3 (Some with_manualCleanup) rt_outside = (inr c, rt1).
Proof.
  split.
  - by apply (construction_manual_cleanup 3 manual_with_destroyRef rt_outside).
  - by apply (construction_manual_cleanup 3 with_manualCleanup rt_outside).
Defined.

Lemma construction_without_context_witness :
  bindable 3 None rt_outside = (inl NoInjectionContext, rt_outside)
  ∧ ∃ c rt1, bindable 3 (Some with_destroyRef) rt_outside = (inr c, rt1).
Proof.
  split.
  - by apply (construction_without_context 3 None rt_outside).
  - destruct (construction_without_context 3 (Some with_destroyRef)
                rt_outside eq_refl) as (_ & Hd & _).
    apply Hd; [by eexists|done..].
Defined.

(** Prove the first conjunct by evaluation and keep it as a hypothesis. *)
Ltac evaluated H :=
  match goal with
  | |- ?A ∧ _ => assert A as H by reflexivity; split; [exact H|]
  end.

Lemma bindTo_failure_atomic_witness :
  ∃ c rt1, bindable 3 (Some with_manualCleanup) rt_outside = (inr c, rt1)
    ∧ bindTo (SignalSource 0) (c, rt1) = (inl SignalWithoutInjector, (c, rt1))
    ∧ bound c = false ∧ read (c, rt1) = Some 3 ∧ effects rt1 = [].
Proof.
  eexists _, _. evaluated Hc. evaluated Hb.
  by destruct (bindTo_failure_atomic _ _ _ _ Hb).
Defined.

Lemma single_bind_witness :
  ∃ c rt1 st',
    bindable 3 (Some with_injector) rt_outside = (inr c, rt1)
    ∧ bindTo (ObservableSource behavior_subject) (c, rt1) = (inr 1, st')
    ∧ bound c = false ∧ bound st'.1 = true
    ∧ bound (calls st' [Env Tick; BindTo (SignalSource 0)]).1 = true
    ∧ ∃ e, bindTo (ObservableSource behavior_subject)
             (calls st' [Env Tick; BindTo (SignalSource 0)])
           = (inl e, calls st' [Env Tick; BindTo (SignalSource 0)]).
Proof.
  eexists _, _, _. evaluated Hc. evaluated Hb.
  exact (single_bind 3 _ _ _ _ [] _ _ _ [Env Tick; BindTo (SignalSource 0)]
           (ObservableSource behavior_subject) Hc Hb).
Defined.

Lemma bindTo_keeps_value_witness :
  ∃ c rt1 st',
    bindable 3 (Some with_injector) rt_outside = (inr c, rt1)
    ∧ bindTo (ObservableSource behavior_subject) (c, rt1) = (inr 1, st')
    ∧ read st' = Some 3
    ∧ read (st'.1, run st'.2 [Emit 4 (Next 12); Destroy 2]) = Some 3.
Proof.
  eexists _, _, _. evaluated Hc. evaluated Hb.
  destruct (bindTo_keeps_value _ _ _ _ [Emit 4 (Next 12); Destroy 2] Hb)
    as (Hr & _ & Hrun).
  - by repeat constructor.
  - split; [exact Hr|exact Hrun].
Defined.

Lemma bindTo_returns_writable_cell_witness :
  ∃ c rt1 st',
    bindable 3 (Some with_injector) rt_outside = (inr c, rt1)
    ∧ bindTo (ObservableSource behavior_subject) (c, rt1) = (inr 1, st')
    ∧ bindableSignal c = 1
    ∧ read ((calls st' (Env <$> two_turns)).1,
            step (calls st' (Env <$> two_turns)).2 (SetSignal 1 42))
      = Some 42.
Proof.
  eexists _, _, _. evaluated Hc. evaluated Hb.
  destruct (bindTo_returns_writable_cell 3 _ _ _ _ [] _ _ _
              (Env <$> two_turns) 42 Hc Hb) as (Hl & _ & _ & Hset).
  split; [by rewrite Hl|by apply Hset].
Defined.

(** C10 as stated fails: a bound cell whose [equal] takes every value for
    the one it holds still reads [3] after [set(42)]. *)
Lemma set_after_bind_kept_by_equal :
  ∃ c rt1 st',
    bindable 3 (Some always_equal) rt_outside = (inr c, rt1)
    ∧ bindTo (ObservableSource behavior_subject) (c, rt1) = (inr 1, st')
    ∧ read (st'.1, run st'.2 [SetSignal 1 42]) = Some 3.
Proof. eexists _, _, _. repeat split; reflexivity. Qed.

Lemma manual_cleanup_rejects_signal_witness :
  ∃ c rt1,
    bindable 3 (Some with_manualCleanup) rt_inside = (inr c, rt1)
    ∧ ∃ e, bindTo (SignalSource 0) (calls (c, rt1) [Env Tick])
           = (inl e, calls (c, rt1) [Env Tick]).
Proof.
  eexists _, _. evaluated Hc.
  destruct (manual_cleanup_rejects_signal 3 with_manualCleanup _ _ _
              [Env Tick] 0 eq_refl Hc)
    as (e & st' & Hb & -> & _).
  by exists e.
Defined.

Lemma signal_binding_needs_captured_injector_witness :
  ∃ c rt1,
    bindable 3 (Some with_destroyRef) rt_inside = (inr c, rt1)
    ∧ ∃ e, bindTo (SignalSource 0) (calls (c, rt1) [])
           = (inl e, calls (c, rt1) []).
Proof.
  eexists _, _. evaluated Hc.
  destruct (signal_binding_needs_captured_injector 3 _ _ _ _ [] 0 Hc)
    as [Hthrows _].
  exact (Hthrows eq_refl).
Defined.

(** C1 as stated fails: a cell made inside an injection context with a
    [destroyRef] and [manualCleanup: false] throws when bound to a signal. *)
Lemma destroyRef_signal_binding_throws :
  manualCleanup with_destroyRef = Some false
  ∧ destroyRef with_destroyRef = Some 7
  ∧ ∃ c rt1,
      bindable 3 (Some with_destroyRef) rt_inside = (inr c, rt1)
      ∧ bindTo (SignalSource 0) (c, rt1)
        = (inl SignalWithoutInjector, (c, rt1)).
Proof. do 2 (split; [reflexivity|]). eexists _, _. split; reflexivity. Qed.




Lemma bindable_creates_one_signal_witness :
  ∃ c rt1,
    bindable 3 (Some with_injector) rt_outside = (inr c, rt1)
    ∧ signals rt_outside !! bindableSignal c = None
    ∧ signals rt1 !! bindableSignal c = Some 3
    ∧ signals rt1 !! 0 = Some 5.
Proof.
  eexists _, _. evaluated Hc.
  destruct (bindable_creates_one_signal _ _ _ _ _ Hc)
    as (Hnew & Hv & Hframe & _).
  split; [exact Hnew|]. split; [exact Hv|].
  rewrite Hframe; [reflexivity|by vm_compute].
Defined.

Lemma scope_resolution_order_witness :
  ∃ c rt1 st',
    bindable 3 (Some destroyRef_and_injector) rt_inside = (inr c, rt1)
    ∧ bindTo (ObservableSource behavior_subject) (calls (c, rt1) [Env Tick])
      = (inr 1, st')
    ∧ ∃ sub, last (subscriptions st'.2) = Some sub ∧ sub_until sub = Some 7.
Proof.
  eexists _, _, _. evaluated Hc. evaluated Hb.
  destruct (scope_resolution_order 3 _ _ _ _ [Env Tick] _ _ _ Hc Hb)
    as (sub & Hlast & _ & _ & Huntil).
  exists sub. split; [exact Hlast|]. exact Huntil.
Defined.

Lemma observable_binding_outcome_witness :
  ∃ c rt1,
    bindable 3 None rt_inside = (inr c, rt1)
    ∧ bindTo (ObservableSource behavior_subject)
        (calls (c, rt1) [Env (Destroy 1)])
      = (inl InjectorDestroyed, calls (c, rt1) [Env (Destroy 1)])
    ∧ ∃ inj, captured None rt_inside = Some inj
             ∧ injector_alive inj (calls (c, rt1) [Env (Destroy 1)]).2 = false.
Proof.
  eexists _, _. evaluated Hc. evaluated Hb.
  destruct (observable_binding_outcome 3 _ _ _ _ [Env (Destroy 1)]
              behavior_subject Hc) as (_ & _ & Hdestroyed).
  exact (Hdestroyed Hb).
Defined.


Lemma unbound_cell_is_plain_signal_witness :
  ∃ c rt1,
    bindable 3 (Some with_manualCleanup) rt_outside = (inr c, rt1)
    ∧ read (calls (c, rt1) failed_attempts) = Some 8.
Proof.
  eexists _, _. evaluated Hc.
  destruct (unbound_cell_is_plain_signal 3 _ rt_outside _ _ failed_attempts
              (conj eq_refl (conj eq_refl eq_refl)) Hc eq_refl)
    as (_ & Hr & _).
  exact (Hr eq_refl).
Defined.

Lemma completion_stops_propagation_witness :
  ∃ c rt1 st',
    bindable 3 (Some with_manualCleanup) rt_outside = (inr c, rt1)
    ∧ bindTo (ObservableSource completing) (c, rt1) = (inr 1, st')
    ∧ signals (run st'.2 ([] ++ [Tick])) !! 1 = Some 10
    ∧ read (st'.1, run (run st'.2 ([] ++ [Tick])) after_teardown)
      = read (st'.1, run st'.2 ([] ++ [Tick])).
Proof.
  eexists _, _, _. evaluated Hc. evaluated Hb.
  match type of Hb with
  | bindTo _ (?c, ?rt) = (_, ?st') =>
      destruct (completion_stops_propagation c rt completing 1 st' []
                  after_teardown) as (_ & Hv & Hkeep)
  end.
  - done.
  - exact Hb.
  - reflexivity.
  - constructor.
  - reflexivity.
  - repeat constructor; done.
  - split; [|exact Hkeep]. apply Hv. reflexivity.
Defined.

Lemma manual_binding_outlives_every_scope_witness :
  ∃ c rt1 st',
    bindable 3 (Some with_manualCleanup) rt_outside = (inr c, rt1)
    ∧ bindTo (ObservableSource behavior_subject) (c, rt1) = (inr 1, st')
    ∧ mirrors (ObservableSource behavior_subject) 1 teardowns rt1
        (run st'.2 (teardowns ++ [Tick]))
    ∧ mirrors_default (ObservableSource behavior_subject) 1 teardowns rt1
        (run st'.2 (teardowns ++ [Tick])).
Proof.
  eexists _, _, _. evaluated Hc. evaluated Hb.
  match goal with
  | |- mirrors ?s ?l ?es ?rt ?rt' ∧ ?B =>
      cut (mirrors s l es rt rt' ∧ (equal_of rt l = Object_is → B))
  end.
  { intros [Hm Hd]. split; [exact Hm|]. apply Hd. reflexivity. }
  eapply manual_binding_outlives_every_scope.
  3: exact Hb.
  - done.
  - reflexivity.
  - repeat constructor; done.
Defined.
